(** * PyButterflyVisualizer: the Black-Scholes call price and the butterfly
      spread evaluation of [main.py]

    The engine of [src/PyButterflyVisualizer/main.py] is the function
    [black_scholes_call] (lines 8-17) and the numerical part of
    [OptionStrategyApp.update_plot] (lines 246-285).

    Numbers.  The program computes on IEEE binary64 floats.  This development
    reads every arithmetic operation over the real numbers [R]: rounding,
    infinities and NaN are outside the model.  Rocq's [/], [ln] and [sqrt] are
    total ([x / 0 = 0], [ln x = 0] for [x <= 0], [sqrt x = 0] for [x < 0]),
    where numpy yields [inf] or [nan] with a warning: the value the model
    gives for the closed form is the value of the program, up to rounding,
    on parameters that keep every operation inside its mathematical domain
    (positive spot price, strike, volatility and time), and only there.

    Values.  A Python value of the engine is a Python float or a
    one-dimensional numpy array; [np.isscalar] tells them apart. *)

From Stdlib Require Import Reals Lra Lia List ZArith Bool Classical_Pred_Type.
From Stdlib Require String Ascii DecimalString DecimalZ DecimalPos.
Import ListNotations.
Open Scope R_scope.

(** ** Exceptions *)

Inductive exn : Type :=
| ZeroDivisionError   (* Python float division by zero *)
| ValueError.         (* numpy: operands could not be broadcast together *)

Inductive result (A : Type) : Type :=
| Ok (a : A)
| Raise (e : exn).

Arguments Ok {A} a.
Arguments Raise {A} e.

Definition bind {A B : Type} (m : result A) (k : A -> result B) : result B :=
  match m with
  | Ok a => k a
  | Raise e => Raise e
  end.

Notation "x <- m ;; k" := (bind m (fun x => k))
  (at level 61, m at next level, right associativity).

(** ** Scalars and arrays *)

Inductive ndval : Type :=
| Scalar (x : R)
| Array (xs : list R).

(** [np.isscalar] *)
Definition isscalar (v : ndval) : bool :=
  match v with
  | Scalar _ => true
  | Array _ => false
  end.

(** An elementwise numpy function of one argument ([np.log], [np.sqrt],
    [np.exp], [norm.cdf], unary minus, [** 2]). *)
Definition ufunc1 (f : R -> R) (v : ndval) : ndval :=
  match v with
  | Scalar x => Scalar (f x)
  | Array xs => Array (map f xs)
  end.

Fixpoint zip_with (f : R -> R -> R) (xs ys : list R) : list R :=
  match xs, ys with
  | x :: xs', y :: ys' => f x y :: zip_with f xs' ys'
  | _, _ => []
  end.

(** An elementwise operation of two arguments, with numpy's broadcasting for
    one-dimensional arrays: a scalar or an array of length one is repeated,
    two arrays of the same length are paired, and any other pair of arrays
    raises [ValueError]. *)
Definition ufunc2 (f : R -> R -> R) (a b : ndval) : result ndval :=
  match a, b with
  | Scalar x, Scalar y => Ok (Scalar (f x y))
  | Scalar x, Array ys => Ok (Array (map (f x) ys))
  | Array xs, Scalar y => Ok (Array (map (fun x => f x y) xs))
  | Array xs, Array ys =>
      match xs, ys with
      | [x], _ => Ok (Array (map (f x) ys))
      | _, [y] => Ok (Array (map (fun x => f x y) xs))
      | _, _ =>
          if Nat.eqb (length xs) (length ys)
          then Ok (Array (zip_with f xs ys))
          else Raise ValueError
      end
  end.

Definition add := ufunc2 Rplus.
Definition sub := ufunc2 Rminus.
Definition mul := ufunc2 Rmult.
Definition maximum := ufunc2 Rmax.

(** [a / b] where the numerator is a numpy value: division by zero gives
    [inf] or [nan] and a warning, never an exception.  [Rdiv] stands for it
    on a divisor that is not zero (Rocq's [x / 0] is [0]). *)
Definition np_div := ufunc2 Rdiv.

(** [a / b] as Python evaluates it on the arguments of the program: when
    both are Python floats and [b] is zero, [ZeroDivisionError] is raised;
    when an array takes part it is numpy's division. *)
Definition truediv (a b : ndval) : result ndval :=
  match a, b with
  | Scalar _, Scalar y =>
      if Req_dec_T y 0 then Raise ZeroDivisionError else np_div a b
  | _, _ => np_div a b
  end.

Definition neg := ufunc1 Ropp.

(** [x ** n].  On a Python float whose power leaves the range of a float
    (a square of [|x|] above about [1.3e154]) Python raises
    [OverflowError]; real numbers have no range. *)
Definition power (n : nat) := ufunc1 (fun x => x ^ n).

(** [np.log], [np.sqrt], [np.exp].  [ln] and [sqrt] stand for them on
    positive, respectively non-negative numbers; elsewhere numpy returns
    [nan] or [-inf] and Rocq's functions return [0]. *)
Definition np_log := ufunc1 ln.
Definition np_sqrt := ufunc1 sqrt.
Definition np_exp := ufunc1 exp.

(** The literal [1e-5] of line 10. *)
Definition threshold : R := 1e-5.

Section Engine.

(** [scipy.stats.norm.cdf], the cumulative distribution function of the
    standard normal law, on one number. *)
Variable norm_cdf : R -> R.

Definition cdf := ufunc1 norm_cdf.

(** Lines 13-17 of [black_scholes_call]: the closed form, operation by
    operation in Python's order of evaluation. *)
Definition closed_form (S K T r sigma : ndval) : result ndval :=
  q <- truediv S K ;;
  s2 <- mul (Scalar 0.5) (power 2 sigma) ;;
  drift <- add r s2 ;;
  dt <- mul drift T ;;
  num <- add (np_log q) dt ;;
  den <- mul sigma (np_sqrt T) ;;
  d1 <- np_div num den ;;
  vol <- mul sigma (np_sqrt T) ;;
  d2 <- sub d1 vol ;;
  lhs <- mul S (cdf d1) ;;
  rt <- mul (neg r) T ;;
  ke <- mul K (np_exp rt) ;;
  rhs <- mul ke (cdf d2) ;;
  sub lhs rhs.

(** [T <= c] for a Python float [T]; on an array the comparison is not a
    truth value, and line 9 keeps arrays away from it. *)
Definition scalar_le (v : ndval) (c : R) : bool :=
  match v with
  | Scalar t => if Rle_dec t c then true else false
  | Array _ => false
  end.

(** Lines 8-17. *)
Definition black_scholes_call (S K T r sigma : ndval) : result ndval :=
  if isscalar T then
    if scalar_le T threshold
    then d <- sub S K ;; maximum d (Scalar 0)
    else closed_form S K T r sigma
  else closed_form S K T r sigma.

(** [np.linspace(start, stop, num)] with numpy's defaults: [num - 1] equal
    steps from [start], and the last point set to [stop] itself. *)
Definition linspace (start stop : R) (num : nat) : list R :=
  match num with
  | O => []
  | S O => [start]
  | S div =>
      map (fun i => INR i * ((stop - start) / INR div) + start) (seq 0 div)
      ++ [stop]
  end.

(** What [update_plot] hands to the chart: the entry cost shown in the
    title (line 266) and the data of the two curves (lines 283-284). *)
Record PlotData : Type := {
  entry_cost : ndval;
  x : ndval;
  y_exp : ndval;
  y_cur : ndval
}.

(** Lines 254-285 of [update_plot], as a function of the six parameters
    read from the widgets (the spec's [evaluate_butterfly]). *)
Definition update_plot_body (S0 sigma T r K_mid width : R) : result PlotData :=
  let K_low := K_mid - width in
  let K_high := K_mid + width in
  cost_low <- black_scholes_call (Scalar S0) (Scalar K_low) (Scalar T) (Scalar r) (Scalar sigma) ;;
  cost_mid <- black_scholes_call (Scalar S0) (Scalar K_mid) (Scalar T) (Scalar r) (Scalar sigma) ;;
  cost_high <- black_scholes_call (Scalar S0) (Scalar K_high) (Scalar T) (Scalar r) (Scalar sigma) ;;
  paid <- add cost_low cost_high ;;
  received <- mul (Scalar 2) cost_mid ;;
  entry_cost <- sub paid received ;;
  let x := Array (linspace (S0 * 0.8) (S0 * 1.2) 300) in
  dl <- sub x (Scalar K_low) ;;
  val_low_exp <- maximum dl (Scalar 0) ;;
  dm <- sub x (Scalar K_mid) ;;
  val_mid_exp <- maximum dm (Scalar 0) ;;
  dh <- sub x (Scalar K_high) ;;
  val_high_exp <- maximum dh (Scalar 0) ;;
  wings_exp <- add val_low_exp val_high_exp ;;
  body_exp <- mul (Scalar 2) val_mid_exp ;;
  strategy_val_exp <- sub wings_exp body_exp ;;
  y_exp <- sub strategy_val_exp entry_cost ;;
  val_low_cur <- black_scholes_call x (Scalar K_low) (Scalar T) (Scalar r) (Scalar sigma) ;;
  val_mid_cur <- black_scholes_call x (Scalar K_mid) (Scalar T) (Scalar r) (Scalar sigma) ;;
  val_high_cur <- black_scholes_call x (Scalar K_high) (Scalar T) (Scalar r) (Scalar sigma) ;;
  wings_cur <- add val_low_cur val_high_cur ;;
  body_cur <- mul (Scalar 2) val_mid_cur ;;
  strategy_val_cur <- sub wings_cur body_cur ;;
  y_cur <- sub strategy_val_cur entry_cost ;;
  Ok {| entry_cost := entry_cost; x := x; y_exp := y_exp; y_cur := y_cur |}.

(** The input widgets of the sidebar (lines 69-103): two sliders with
    integer values and four spin boxes. *)
Record Widgets : Type := {
  spin_price : R;
  slider_iv : Z;
  slider_days : Z;
  spin_rate : R;
  spin_atm : R;
  spin_width : R
}.

(** The ranges the constructor gives the widgets ([setRange], lines 70-101);
    Qt keeps every value inside its range. *)
Definition in_range (w : Widgets) : Prop :=
  1 <= spin_price w <= 1000 /\
  (10 <= slider_iv w <= 100)%Z /\
  (0 <= slider_days w <= 90)%Z /\
  0 <= spin_rate w <= 20 /\
  1 <= spin_atm w <= 1000 /\
  0.5 <= spin_width w <= 50.

(** Lines 246-285: the parameters are read from the widgets (lines 247-253)
    and the rest of the method computes on them. *)
Definition update_plot (w : Widgets) : result PlotData :=
  let S0 := spin_price w in
  let sigma := IZR (slider_iv w) / 100.0 in
  let days := slider_days w in
  let T := IZR days / 365.0 in
  let r := spin_rate w / 100.0 in
  let K_mid := spin_atm w in
  let width := spin_width w in
  update_plot_body S0 sigma T r K_mid width.

End Engine.

Arguments closed_form norm_cdf S K T r sigma : assert.
Arguments black_scholes_call norm_cdf S K T r sigma : assert.

(** ** The formula of the specification

    The Black-Scholes price of a European call as section 4.1 of the
    specification writes it, on numbers, for a given [Phi]. *)

Definition bs_d1 (S K T r sigma : R) : R :=
  (ln (S / K) + (r + sigma ^ 2 / 2) * T) / (sigma * sqrt T).

Definition bs_d2 (S K T r sigma : R) : R :=
  bs_d1 S K T r sigma - sigma * sqrt T.

Definition bs_price (Phi : R -> R) (S K T r sigma : R) : R :=
  S * Phi (bs_d1 S K T r sigma)
  - K * exp (- (r * T)) * Phi (bs_d2 S K T r sigma).

(** The intrinsic value of a call. *)
Definition intrinsic (S K : R) : R := Rmax (S - K) 0.

(** The payoff of the butterfly at expiration, net of the entry cost
    (section 4.2, step 4). *)
Definition butterfly_payoff (K_low K_mid K_high cost s : R) : R :=
  (intrinsic s K_low + intrinsic s K_high - 2 * intrinsic s K_mid) - cost.

(** ** Evaluation lemmas *)

Lemma Ok_inj {A : Type} (a b : A) : Ok a = Ok b -> a = b.
Proof. intros H. now injection H. Qed.

Lemma zip_with_map (f : R -> R -> R) (g h : R -> R) (xs : list R) :
  zip_with f (map g xs) (map h xs) = map (fun x => f (g x) (h x)) xs.
Proof.
  induction xs as [|x xs IH]; simpl; [reflexivity | now rewrite IH].
Qed.

Lemma ufunc2_same_length (f : R -> R -> R) (xs ys : list R) :
  length xs = length ys ->
  ufunc2 f (Array xs) (Array ys) = Ok (Array (zip_with f xs ys)).
Proof.
  intros Hlen.
  destruct xs as [|x [|x' xs]]; destruct ys as [|y [|y' ys]];
    simpl in Hlen; try discriminate; try reflexivity.
  injection Hlen as Hlen.
  unfold ufunc2. cbn [length]. rewrite Hlen, Nat.eqb_refl. reflexivity.
Qed.

Lemma ufunc2_maps (f : R -> R -> R) (g h : R -> R) (xs : list R) :
  ufunc2 f (Array (map g xs)) (Array (map h xs))
  = Ok (Array (map (fun x => f (g x) (h x)) xs)).
Proof.
  rewrite ufunc2_same_length by now rewrite !length_map.
  now rewrite zip_with_map.
Qed.

Lemma ufunc2_map_r (f : R -> R -> R) (h : R -> R) (xs : list R) :
  ufunc2 f (Array xs) (Array (map h xs))
  = Ok (Array (map (fun x => f x (h x)) xs)).
Proof.
  rewrite <- (map_id xs) at 1. apply ufunc2_maps.
Qed.

Lemma ufunc2_scalars (f : R -> R -> R) (a b : R) :
  ufunc2 f (Scalar a) (Scalar b) = Ok (Scalar (f a b)).
Proof. reflexivity. Qed.

Lemma ufunc2_scalar_array (f : R -> R -> R) (a : R) (ys : list R) :
  ufunc2 f (Scalar a) (Array ys) = Ok (Array (map (f a) ys)).
Proof. reflexivity. Qed.

Lemma ufunc2_array_scalar (f : R -> R -> R) (xs : list R) (b : R) :
  ufunc2 f (Array xs) (Scalar b) = Ok (Array (map (fun a => f a b) xs)).
Proof. reflexivity. Qed.

Lemma bind_Ok {A B : Type} (a : A) (k : A -> result B) : bind (Ok a) k = k a.
Proof. reflexivity. Qed.

(** Evaluation of a chain of numpy operations whose array operands are all
    images of one list. *)
Ltac nd_eval :=
  unfold np_div, np_log, np_sqrt, np_exp, cdf, neg, power,
    add, sub, mul, maximum;
  repeat first
    [ rewrite ufunc2_scalars | rewrite ufunc2_scalar_array
    | rewrite ufunc2_array_scalar | rewrite ufunc2_maps
    | rewrite ufunc2_map_r | rewrite map_map
    | rewrite bind_Ok | progress cbn [ufunc1] ].

Lemma scalar_le_true (t c : R) : t <= c -> scalar_le (Scalar t) c = true.
Proof. intros H. unfold scalar_le. destruct (Rle_dec t c); [reflexivity | contradiction]. Qed.

Lemma scalar_le_false (t c : R) : c < t -> scalar_le (Scalar t) c = false.
Proof. intros H. unfold scalar_le. destruct (Rle_dec t c); [lra | reflexivity]. Qed.

Section Evaluation.

Variable Phi : R -> R.

(** The shortcut of lines 9-11 on a Python float [S]. *)
Lemma shortcut_scalar (S K t : R) (r sigma : ndval) :
  t <= threshold ->
  black_scholes_call Phi (Scalar S) (Scalar K) (Scalar t) r sigma
  = Ok (Scalar (intrinsic S K)).
Proof.
  intros Ht. unfold black_scholes_call. cbn [isscalar].
  rewrite (scalar_le_true _ _ Ht). reflexivity.
Qed.

(** The shortcut of lines 9-11 on an array [S]. *)
Lemma shortcut_array (xs : list R) (K t : R) (r sigma : ndval) :
  t <= threshold ->
  black_scholes_call Phi (Array xs) (Scalar K) (Scalar t) r sigma
  = Ok (Array (map (fun s => intrinsic s K) xs)).
Proof.
  intros Ht. unfold black_scholes_call. cbn [isscalar].
  rewrite (scalar_le_true _ _ Ht). nd_eval. reflexivity.
Qed.

(** The value the closed form computes on numbers, in the order line 13-16
    compute it. *)
Definition code_price (S K T r sigma : R) : R :=
  let d1 := (ln (S / K) + (r + 0.5 * sigma ^ 2) * T) / (sigma * sqrt T) in
  let d2 := d1 - sigma * sqrt T in
  S * Phi d1 - K * exp (- r * T) * Phi d2.

Lemma code_price_spec (S K T r sigma : R) :
  code_price S K T r sigma = bs_price Phi S K T r sigma.
Proof.
  unfold code_price, bs_price, bs_d2, bs_d1. cbv zeta.
  replace (r + 0.5 * sigma ^ 2) with (r + sigma ^ 2 / 2) by lra.
  replace (- r * T) with (- (r * T)) by lra.
  reflexivity.
Qed.

Lemma closed_form_scalar (S K T r sigma : R) :
  K <> 0 ->
  closed_form Phi (Scalar S) (Scalar K) (Scalar T) (Scalar r) (Scalar sigma)
  = Ok (Scalar (bs_price Phi S K T r sigma)).
Proof.
  intros HK. rewrite <- code_price_spec.
  unfold closed_form, truediv. destruct (Req_dec_T K 0) as [E|_]; [contradiction|].
  reflexivity.
Qed.

Lemma closed_form_scalar_zero_strike (S T r sigma : R) :
  closed_form Phi (Scalar S) (Scalar 0) (Scalar T) (Scalar r) (Scalar sigma)
  = Raise ZeroDivisionError.
Proof.
  unfold closed_form, truediv. destruct (Req_dec_T 0 0) as [_|N]; [reflexivity|].
  now contradiction N.
Qed.

Lemma closed_form_array_S (xs : list R) (K T r sigma : R) :
  closed_form Phi (Array xs) (Scalar K) (Scalar T) (Scalar r) (Scalar sigma)
  = Ok (Array (map (fun s => bs_price Phi s K T r sigma) xs)).
Proof.
  unfold closed_form, truediv. nd_eval.
  do 2 f_equal. apply map_ext. intros s. apply code_price_spec.
Qed.


End Evaluation.

(** ** The evaluator, case by case *)

Section Evaluator.

Variable Phi : R -> R.

Lemma call_scalar_formula (S K T r sigma : R) :
  threshold < T -> K <> 0 ->
  black_scholes_call Phi (Scalar S) (Scalar K) (Scalar T) (Scalar r) (Scalar sigma)
  = Ok (Scalar (bs_price Phi S K T r sigma)).
Proof.
  intros HT HK. unfold black_scholes_call. cbn [isscalar].
  rewrite (scalar_le_false _ _ HT). now apply closed_form_scalar.
Qed.

Lemma call_scalar_zero_strike (S T r sigma : R) :
  threshold < T ->
  black_scholes_call Phi (Scalar S) (Scalar 0) (Scalar T) (Scalar r) (Scalar sigma)
  = Raise ZeroDivisionError.
Proof.
  intros HT. unfold black_scholes_call. cbn [isscalar].
  rewrite (scalar_le_false _ _ HT). apply closed_form_scalar_zero_strike.
Qed.

Lemma call_array_formula (xs : list R) (K T r sigma : R) :
  threshold < T ->
  black_scholes_call Phi (Array xs) (Scalar K) (Scalar T) (Scalar r) (Scalar sigma)
  = Ok (Array (map (fun s => bs_price Phi s K T r sigma) xs)).
Proof.
  intros HT. unfold black_scholes_call. cbn [isscalar].
  rewrite (scalar_le_false _ _ HT). apply closed_form_array_S.
Qed.

(** The entry cost and the two curves when the shortcut applies. *)
Lemma update_plot_body_expired (S0 sigma T r K_mid width : R) :
  T <= threshold ->
  let K_low := K_mid - width in
  let K_high := K_mid + width in
  let cost := intrinsic S0 K_low + intrinsic S0 K_high - 2 * intrinsic S0 K_mid in
  let xs := linspace (S0 * 0.8) (S0 * 1.2) 300 in
  update_plot_body Phi S0 sigma T r K_mid width
  = Ok {| entry_cost := Scalar cost;
          x := Array xs;
          y_exp := Array (map (butterfly_payoff K_low K_mid K_high cost) xs);
          y_cur := Array (map (butterfly_payoff K_low K_mid K_high cost) xs) |}.
Proof.
  intros HT K_low K_high cost xs. unfold update_plot_body. cbv zeta.
  fold K_low K_high xs. clearbody xs.
  rewrite !(shortcut_scalar Phi _ _ _ _ _ HT). rewrite !bind_Ok.
  rewrite !(shortcut_array Phi _ _ _ _ _ HT).
  nd_eval. reflexivity.
Qed.

(** The entry cost and the two curves when the closed form is evaluated
    and no strike is zero. *)
Lemma update_plot_body_live (S0 sigma T r K_mid width : R) :
  threshold < T ->
  K_mid - width <> 0 -> K_mid <> 0 -> K_mid + width <> 0 ->
  let K_low := K_mid - width in
  let K_high := K_mid + width in
  let price := fun s K => bs_price Phi s K T r sigma in
  let cost := price S0 K_low + price S0 K_high - 2 * price S0 K_mid in
  let xs := linspace (S0 * 0.8) (S0 * 1.2) 300 in
  update_plot_body Phi S0 sigma T r K_mid width
  = Ok {| entry_cost := Scalar cost;
          x := Array xs;
          y_exp := Array (map (butterfly_payoff K_low K_mid K_high cost) xs);
          y_cur := Array (map (fun s => (price s K_low + price s K_high
                                         - 2 * price s K_mid) - cost) xs) |}.
Proof.
  intros HT Hl Hm Hh K_low K_high price cost xs. unfold update_plot_body. cbv zeta.
  fold K_low K_high xs. clearbody xs.
  rewrite !call_scalar_formula by assumption. rewrite !bind_Ok.
  rewrite !call_array_formula by assumption.
  nd_eval. reflexivity.
Qed.

(** The only exception of the evaluator: a strike that is zero while the
    closed form is evaluated. *)
Lemma update_plot_body_zero_strike (S0 sigma T r K_mid width : R) :
  threshold < T ->
  K_mid - width = 0 \/ K_mid = 0 \/ K_mid + width = 0 ->
  update_plot_body Phi S0 sigma T r K_mid width = Raise ZeroDivisionError.
Proof.
  intros HT H. unfold update_plot_body. cbv zeta.
  generalize (linspace (S0 * 0.8) (S0 * 1.2) 300). intros xs.
  destruct (Req_dec_T (K_mid - width) 0) as [El|Nl].
  { rewrite El, call_scalar_zero_strike by assumption. reflexivity. }
  rewrite (call_scalar_formula _ (K_mid - width)) by assumption. cbn [bind].
  destruct (Req_dec_T K_mid 0) as [Em|Nm].
  { rewrite Em, call_scalar_zero_strike by assumption. reflexivity. }
  rewrite (call_scalar_formula _ K_mid) by assumption. cbn [bind].
  destruct H as [H|[H|H]]; try contradiction.
  rewrite H, call_scalar_zero_strike by assumption. reflexivity.
Qed.

End Evaluator.

(** ** The swept domain *)

Lemma linspace_length (a b : R) (num : nat) : length (linspace a b num) = num.
Proof.
  destruct num as [|[|n]]; try reflexivity.
  unfold linspace. rewrite length_app, length_map, length_seq. simpl. lia.
Qed.

Lemma nth_map_seq (f : nat -> R) (n i : nat) (d : R) :
  (i < n)%nat -> nth i (map f (seq 0 n)) d = f i.
Proof.
  intros Hi.
  rewrite (nth_indep _ d (f O)) by (rewrite length_map, length_seq; exact Hi).
  rewrite map_nth, seq_nth by exact Hi. reflexivity.
Qed.

(** Every point of [linspace a b (n + 2)] is [a] plus a multiple of the
    step [(b - a) / (n + 1)]. *)
Lemma linspace_nth (a b : R) (n i : nat) :
  (i < S (S n))%nat ->
  nth i (linspace a b (S (S n))) 0 = a + INR i * ((b - a) / INR (S n)).
Proof.
  intros Hi. unfold linspace.
  assert (Hn : INR (S n) <> 0) by (apply not_0_INR; discriminate).
  destruct (Nat.eq_dec i (S n)) as [->|Hne].
  - rewrite app_nth2; rewrite length_map, length_seq; [|lia].
    rewrite Nat.sub_diag. simpl nth. field. exact Hn.
  - assert (Hlt : (i < S n)%nat) by lia.
    rewrite app_nth1 by (rewrite length_map, length_seq; exact Hlt).
    rewrite nth_map_seq by exact Hlt. lra.
Qed.

Lemma linspace_increasing (a b : R) (n i j : nat) :
  a < b -> (i < j)%nat -> (j < S (S n))%nat ->
  nth i (linspace a b (S (S n))) 0 < nth j (linspace a b (S (S n))) 0.
Proof.
  intros Hab Hij Hj. rewrite !linspace_nth by lia.
  assert (Hn : 0 < INR (S n)) by (apply lt_0_INR; lia).
  assert (Hstep : 0 < (b - a) / INR (S n)) by (apply Rdiv_lt_0_compat; lra).
  apply lt_INR in Hij. nra.
Qed.

(** ** What a result of the evaluator looks like *)

Lemma update_plot_body_inv (Phi : R -> R) (S0 sigma T r K_mid width : R) (d : PlotData) :
  update_plot_body Phi S0 sigma T r K_mid width = Ok d ->
  exists (cost : R) (cur : R -> R),
    let xs := linspace (S0 * 0.8) (S0 * 1.2) 300 in
    d = {| entry_cost := Scalar cost;
           x := Array xs;
           y_exp := Array (map (butterfly_payoff (K_mid - width) K_mid
                                  (K_mid + width) cost) xs);
           y_cur := Array (map cur xs) |}.
Proof.
  intros H. destruct (Rle_lt_dec T threshold) as [HT|HT].
  - rewrite update_plot_body_expired in H by exact HT.
    apply Ok_inj in H. subst d. do 2 eexists. cbv zeta. reflexivity.
  - destruct (Req_dec_T (K_mid - width) 0) as [El|Nl];
      [rewrite update_plot_body_zero_strike in H by tauto; discriminate|].
    destruct (Req_dec_T K_mid 0) as [Em|Nm];
      [rewrite update_plot_body_zero_strike in H by tauto; discriminate|].
    destruct (Req_dec_T (K_mid + width) 0) as [Eh|Nh];
      [rewrite update_plot_body_zero_strike in H by tauto; discriminate|].
    rewrite update_plot_body_live in H by assumption.
    apply Ok_inj in H. subst d. do 2 eexists. cbv zeta. reflexivity.
Qed.

(** ** The standard normal distribution function

    [norm.cdf] is a library function; its mathematical counterpart is built
    here from the Gaussian curve [exp (- t ^ 2 / 2)]: the area to the left
    of [x] divided by the whole area (which is [sqrt (2 * PI)], a value this
    development does not need). *)

Section Antiderivative.

Variable g : R -> R.
Hypothesis g_cont : continuity g.

Lemma integrable_le (a b : R) : a <= b -> Riemann_integrable g a b.
Proof. intros H. apply continuity_implies_RiemannInt; [exact H | intros; apply g_cont]. Qed.

Definition integrable (a b : R) : Riemann_integrable g a b :=
  match Rle_dec a b with
  | left H => integrable_le a b H
  | right H => RiemannInt_P1 (integrable_le b a (Rlt_le _ _ (Rnot_le_lt _ _ H)))
  end.

(** The integral of [g] from [0] to [x]. *)
Definition integral_from_0 (x : R) : R := RiemannInt (integrable 0 x).

Lemma integral_from_0_derivable (x : R) :
  derivable_pt_lim integral_from_0 x (g x).
Proof.
  set (a := x - 1). set (b := x + 1).
  assert (hab : a <= b) by (unfold a, b; lra).
  assert (C0 : forall y, a <= y <= b -> continuity_pt g y) by (intros; apply g_cont).
  pose proof (RiemannInt_P28 hab C0 (x:=x)) as HP.
  assert (Hx : a <= x <= b) by (unfold a, b; lra).
  specialize (HP Hx).
  set (c := RiemannInt (integrable 0 a)).
  apply (derivable_pt_lim_locally_ext
           (fun y => primitive hab (FTC_P1 hab C0) y + c) _ x a b).
  - unfold a, b; lra.
  - intros z Hz. unfold primitive.
    destruct (Rle_dec a z) as [Haz|N]; [|lra].
    destruct (Rle_dec z b) as [Hzb|N]; [|lra].
    unfold integral_from_0, c.
    rewrite Rplus_comm. apply RiemannInt_P26.
  - replace (g x) with (g x + 0) by ring.
    apply (derivable_pt_lim_plus _ (fct_cte c)); [exact HP | apply derivable_pt_lim_const].
Qed.

End Antiderivative.

Lemma nondecreasing_of_derivative (f f' : R -> R) :
  (forall x, derivable_pt_lim f x (f' x)) ->
  (forall x, 0 <= f' x) ->
  forall a b, a <= b -> f a <= f b.
Proof.
  intros Hd Hpos a b [Hlt| ->]; [|lra].
  destruct (MVT_cor2 f f' a b Hlt (fun c _ => Hd c)) as (c & Hc & _).
  pose proof (Hpos c). nra.
Qed.

Lemma exp_le_mono (u v : R) : u <= v -> exp u <= exp v.
Proof. intros [H| ->]; [left; now apply exp_increasing | lra]. Qed.

(** The Gaussian curve, the standard normal density up to its constant. *)
Definition gauss (t : R) : R := exp (- (t ^ 2 / 2)).

Lemma gauss_pos (t : R) : 0 < gauss t.
Proof. apply exp_pos. Qed.

Lemma gauss_derivable (t : R) : derivable_pt_lim gauss t (- t * gauss t).
Proof.
  unfold gauss.
  replace (- t * exp (- (t ^ 2 / 2))) with (exp (- (t ^ 2 / 2)) * (- t)) by ring.
  apply (derivable_pt_lim_comp (fun u => - (u ^ 2 / 2)) exp).
  - apply (derivable_pt_lim_ext (fun u => (-1 / 2) * (u ^ 2))); [intros; field|].
    replace (- t) with ((-1 / 2) * (INR 2 * t ^ Nat.pred 2)) by (simpl; field).
    apply (derivable_pt_lim_scal (fun u => u ^ 2)). apply derivable_pt_lim_pow.
  - apply derivable_pt_lim_exp.
Qed.

Lemma gauss_cont : continuity gauss.
Proof.
  intros t. apply derivable_continuous_pt. exists (- t * gauss t). apply gauss_derivable.
Qed.

(** [gauss t <= exp (1 / 2 + t)] and [gauss t <= exp (1 / 2 - t)] *)
Lemma gauss_le_exp_l (t : R) : gauss t <= exp (1 / 2) * exp t.
Proof.
  rewrite <- exp_plus. apply exp_le_mono.
  pose proof (Rle_0_sqr (t + 1)) as H. unfold Rsqr in H. simpl. lra.
Qed.

Lemma gauss_le_exp_r (t : R) : gauss t <= exp (1 / 2) * exp (- t).
Proof.
  rewrite <- exp_plus. apply exp_le_mono.
  pose proof (Rle_0_sqr (t - 1)) as H. unfold Rsqr in H. simpl. lra.
Qed.

(** The area under the Gaussian curve between [0] and [x]. *)
Definition area (x : R) : R := integral_from_0 gauss gauss_cont x.

Lemma area_derivable (x : R) : derivable_pt_lim area x (gauss x).
Proof. apply integral_from_0_derivable. Qed.

Lemma area_mono (a b : R) : a <= b -> area a <= area b.
Proof.
  apply (nondecreasing_of_derivative area gauss area_derivable).
  intros t. left. apply gauss_pos.
Qed.

Lemma area_strict : area 0 < area 1.
Proof.
  destruct (MVT_cor2 area gauss 0 1 Rlt_0_1 (fun c _ => area_derivable c)) as (c & Hc & _).
  pose proof (gauss_pos c). lra.
Qed.

Lemma exp_opp_derivable (x : R) : derivable_pt_lim (fun u => exp (- u)) x (- exp (- x)).
Proof.
  replace (- exp (- x)) with (exp (- x) * -1) by ring.
  apply (derivable_pt_lim_comp Ropp exp).
  - apply (derivable_pt_lim_opp id). apply derivable_pt_lim_id.
  - apply derivable_pt_lim_exp.
Qed.

(** [exp (1/2) * exp x - area x] does not decrease. *)
Lemma left_tail_mono (a b : R) :
  a <= b -> exp (1 / 2) * exp a - area a <= exp (1 / 2) * exp b - area b.
Proof.
  apply (nondecreasing_of_derivative (fun x => exp (1 / 2) * exp x - area x)
           (fun x => exp (1 / 2) * exp x - gauss x)).
  - intros x.
    apply (derivable_pt_lim_minus (fun x => exp (1 / 2) * exp x) area).
    + apply (derivable_pt_lim_scal exp). apply derivable_pt_lim_exp.
    + apply area_derivable.
  - intros x. pose proof (gauss_le_exp_l x). lra.
Qed.

(** [- exp (1/2) * exp (- x) - area x] does not decrease. *)
Lemma right_tail_mono (a b : R) :
  a <= b ->
  - (exp (1 / 2) * exp (- a)) - area a <= - (exp (1 / 2) * exp (- b)) - area b.
Proof.
  apply (nondecreasing_of_derivative (fun x => - (exp (1 / 2) * exp (- x)) - area x)
           (fun x => exp (1 / 2) * exp (- x) - gauss x)).
  - intros x.
    apply (derivable_pt_lim_minus (fun x => - (exp (1 / 2) * exp (- x))) area).
    + replace (exp (1 / 2) * exp (- x)) with (- (exp (1 / 2) * - exp (- x))) by ring.
      apply (derivable_pt_lim_opp (fun x => exp (1 / 2) * exp (- x))).
      apply (derivable_pt_lim_scal (fun x => exp (- x))). apply exp_opp_derivable.
    + apply area_derivable.
  - intros x. pose proof (gauss_le_exp_r x). lra.
Qed.

Lemma area_lower (x : R) : area 0 - exp (1 / 2) <= area x.
Proof.
  pose proof (exp_pos (1 / 2)) as C. pose proof (exp_pos x) as Ex.
  destruct (Rle_lt_dec x 0) as [H|H].
  - pose proof (left_tail_mono x 0 H) as M. rewrite exp_0 in M. nra.
  - pose proof (area_mono 0 x (Rlt_le _ _ H)). lra.
Qed.

Lemma area_upper (x : R) : area x <= area 0 + exp (1 / 2).
Proof.
  pose proof (exp_pos (1 / 2)) as C. pose proof (exp_pos (- x)) as Ex.
  destruct (Rle_lt_dec 0 x) as [H|H].
  - pose proof (right_tail_mono 0 x H) as M. rewrite Ropp_0, exp_0 in M. nra.
  - pose proof (area_mono x 0 (Rlt_le _ _ H)). lra.
Qed.

(** The values of the area, and their opposites. *)
Definition area_values (y : R) : Prop := exists x, y = area x.
Definition area_opposites (y : R) : Prop := exists x, y = - area x.

Lemma area_values_bound : bound area_values.
Proof. exists (area 0 + exp (1 / 2)). intros y [x ->]. apply area_upper. Qed.

Lemma area_opposites_bound : bound area_opposites.
Proof.
  exists (- (area 0 - exp (1 / 2))). intros y [x ->].
  pose proof (area_lower x). lra.
Qed.

Lemma area_values_inhabited : exists y, area_values y.
Proof. exists (area 0), 0. reflexivity. Qed.

Lemma area_opposites_inhabited : exists y, area_opposites y.
Proof. exists (- area 0), 0. reflexivity. Qed.

(** The limits of the area at [+oo] and at [-oo]. *)
Definition area_sup : R :=
  proj1_sig (completeness area_values area_values_bound area_values_inhabited).

Definition area_inf : R :=
  - proj1_sig (completeness area_opposites area_opposites_bound area_opposites_inhabited).

Lemma area_le_sup (x : R) : area x <= area_sup.
Proof.
  unfold area_sup.
  destruct (completeness area_values _ _) as [m [Hub Hl]]. simpl.
  apply Hub. now exists x.
Qed.

Lemma area_ge_inf (x : R) : area_inf <= area x.
Proof.
  unfold area_inf.
  destruct (completeness area_opposites _ _) as [m [Hub Hl]]. simpl.
  assert (- area x <= m) by (apply Hub; now exists x). lra.
Qed.

Lemma area_near_inf (eps : R) : 0 < eps -> exists x, area x < area_inf + eps.
Proof.
  intros Heps. unfold area_inf.
  destruct (completeness area_opposites _ _) as [m [Hub Hleast]]. simpl.
  destruct (Rle_lt_dec m (m - eps)) as [H|_]; [lra|].
  apply Classical_Pred_Type.not_all_not_ex. intros Hno.
  assert (Hb : is_upper_bound area_opposites (m - eps)).
  { intros y [x ->]. specialize (Hno x). lra. }
  specialize (Hleast _ Hb). lra.
Qed.

Lemma area_inf_lt_sup : area_inf < area_sup.
Proof.
  pose proof (area_ge_inf 0). pose proof (area_le_sup 1). pose proof area_strict. lra.
Qed.

(** The distribution function of the standard normal law: the area under
    the Gaussian curve to the left of [x], over the whole area. *)
Definition std_normal_cdf (x : R) : R :=
  (area x - area_inf) / (area_sup - area_inf).

Lemma left_area_tail (x : R) : area x - area_inf <= exp (1 / 2) * exp x.
Proof.
  apply le_epsilon. intros eps Heps.
  destruct (area_near_inf eps Heps) as [y0 Hy0].
  set (y := Rmin y0 x).
  pose proof (left_tail_mono y x (Rmin_r _ _)) as M.
  pose proof (area_mono y y0 (Rmin_l _ _)).
  pose proof (exp_pos (1 / 2)). pose proof (exp_pos y).
  assert (0 < exp (1 / 2) * exp y) by (apply Rmult_lt_0_compat; assumption).
  lra.
Qed.

(** [exp t >= t ^ 2 / 4] *)
Lemma exp_ge_sqr (t : R) : 0 <= t -> t * t / 4 <= exp t.
Proof.
  intros Ht. replace t with (t / 2 + t / 2) at 3 by field. rewrite exp_plus.
  assert (H : 1 + t / 2 <= exp (t / 2)).
  { destruct Ht as [Ht| <-].
    - left. apply exp_ineq1. lra.
    - replace (0 / 2) with 0 by field. rewrite exp_0. lra. }
  nra.
Qed.

(** [gauss x + x * (area x - area_inf)], whose derivative is the left area. *)
Definition mills (x : R) : R := gauss x + x * (area x - area_inf).

Lemma mills_derivable (x : R) : derivable_pt_lim mills x (area x - area_inf).
Proof.
  unfold mills.
  replace (area x - area_inf)
    with (- x * gauss x + (1 * (area x - area_inf) + x * (gauss x - 0))) by ring.
  apply (derivable_pt_lim_plus gauss (fun u => u * (area u - area_inf))).
  - apply gauss_derivable.
  - apply (derivable_pt_lim_mult id (fun u => area u - area_inf)).
    + apply derivable_pt_lim_id.
    + apply (derivable_pt_lim_minus area (fct_cte area_inf)).
      * apply area_derivable.
      * apply derivable_pt_lim_const.
Qed.

Lemma mills_mono (a b : R) : a <= b -> mills a <= mills b.
Proof.
  apply (nondecreasing_of_derivative mills _ mills_derivable).
  intros x. pose proof (area_ge_inf x). lra.
Qed.

Lemma mills_nonneg (x : R) : 0 <= mills x.
Proof.
  apply le_epsilon. intros eps Heps.
  pose proof (exp_pos (1 / 2)) as HC. set (C := exp (1 / 2)) in *.
  set (t := Rmax 1 (Rmax (- x) (4 * C / eps))).
  assert (Ht1 : 1 <= t) by apply Rmax_l.
  assert (Htx : - x <= t).
  { apply Rle_trans with (Rmax (- x) (4 * C / eps)); [apply Rmax_l | apply Rmax_r]. }
  assert (Hte : 4 * C / eps <= t).
  { apply Rle_trans with (Rmax (- x) (4 * C / eps)); apply Rmax_r. }
  assert (Hm : mills (- t) <= mills x) by (apply mills_mono; lra).
  enough (- eps <= mills (- t)) by lra.
  unfold mills.
  pose proof (gauss_pos (- t)) as Hg.
  pose proof (left_area_tail (- t)) as Htail. fold C in Htail.
  pose proof (area_ge_inf (- t)) as HG.
  set (G := area (- t) - area_inf) in *.
  pose proof (exp_ge_sqr t ltac:(lra)) as He.
  pose proof (exp_pos (- t)) as Hen.
  assert (Hinv : exp (- t) * exp t = 1) by (rewrite <- exp_plus; replace (- t + t) with 0 by ring; apply exp_0).
  (* t * exp (-t) <= 4 / t *)
  assert (Hte' : t * exp (- t) <= 4 / t).
  { apply Rmult_le_reg_r with (t * exp t).
    - apply Rmult_lt_0_compat; [lra | apply exp_pos].
    - replace (t * exp (- t) * (t * exp t)) with (t * t * (exp (- t) * exp t)) by ring.
      rewrite Hinv. replace (4 / t * (t * exp t)) with (4 * exp t) by (field; lra). lra. }
  assert (HCe : 4 * C / t <= eps).
  { apply Rmult_le_reg_r with (t / eps).
    - apply Rdiv_lt_0_compat; lra.
    - replace (4 * C / t * (t / eps)) with (4 * C / eps) by (field; lra).
      replace (eps * (t / eps)) with t by (field; lra). exact Hte. }
  assert (HtG : t * G <= t * (C * exp (- t))) by (apply Rmult_le_compat_l; lra).
  assert (Hc4 : C * (t * exp (- t)) <= C * (4 / t)) by (apply Rmult_le_compat_l; lra).
  replace (C * (4 / t)) with (4 * C / t) in Hc4 by (field; lra).
  lra.
Qed.

(** [(area x - area_inf) * exp (x ^ 2 / 2)] does not decrease. *)
Lemma ratio_mono (u v : R) :
  u <= v ->
  (area u - area_inf) * exp (u ^ 2 / 2) <= (area v - area_inf) * exp (v ^ 2 / 2).
Proof.
  apply (nondecreasing_of_derivative
           (fun x => (area x - area_inf) * exp (x ^ 2 / 2))
           (fun x => (gauss x - 0) * exp (x ^ 2 / 2)
                     + (area x - area_inf) * (exp (x ^ 2 / 2) * x))).
  - intros x.
    apply (derivable_pt_lim_mult (fun x => area x - area_inf) (fun x => exp (x ^ 2 / 2))).
    + apply (derivable_pt_lim_minus area (fct_cte area_inf)).
      * apply area_derivable.
      * apply derivable_pt_lim_const.
    + apply (derivable_pt_lim_comp (fun u => u ^ 2 / 2) exp).
      * apply (derivable_pt_lim_ext (fun u => (1 / 2) * (u ^ 2))); [intros; field|].
        replace x with ((1 / 2) * (INR 2 * x ^ Nat.pred 2)) at 2 by (simpl; field).
        apply (derivable_pt_lim_scal (fun u => u ^ 2)). apply derivable_pt_lim_pow.
      * apply derivable_pt_lim_exp.
  - intros x. pose proof (mills_nonneg x) as Hm. unfold mills in Hm.
    pose proof (exp_pos (x ^ 2 / 2)) as He.
    replace ((gauss x - 0) * exp (x ^ 2 / 2) + (area x - area_inf) * (exp (x ^ 2 / 2) * x))
      with (exp (x ^ 2 / 2) * (gauss x + x * (area x - area_inf))) by ring.
    apply Rmult_le_pos; lra.
Qed.

(** ** What the bounds on the price need from [norm.cdf]

    Two facts about the standard normal distribution function [Phi]: it
    takes its values in [[0, 1]], and [Phi x / phi x] does not decrease,
    where [phi x = exp (- x ^ 2 / 2) / sqrt (2 * PI)] is the density
    (written without the quotient and without the constant). *)

Record normal_cdf (Phi : R -> R) : Prop := {
  cdf_range : forall u, 0 <= Phi u <= 1;
  cdf_mills : forall u v, u <= v ->
    Phi u * exp (- (v ^ 2 / 2)) <= Phi v * exp (- (u ^ 2 / 2))
}.

Section Bounds.

Variable Phi : R -> R.
Hypothesis Phi_cdf : normal_cdf Phi.

Variables S K T r sigma : R.
Hypothesis S_pos : 0 < S.
Hypothesis K_pos : 0 < K.
Hypothesis sigma_pos : 0 < sigma.
Hypothesis T_pos : 0 < T.

Let a := sigma * sqrt T.
Let d1 := bs_d1 S K T r sigma.
Let d2 := bs_d2 S K T r sigma.

Lemma vol_pos : 0 < a.
Proof. unfold a. apply Rmult_lt_0_compat; [assumption | now apply sqrt_lt_R0]. Qed.

Lemma vol_sqr : a * a = sigma ^ 2 * T.
Proof.
  unfold a. replace (sigma * sqrt T * (sigma * sqrt T))
    with (sigma ^ 2 * (sqrt T * sqrt T)) by ring.
  rewrite sqrt_sqrt by lra. reflexivity.
Qed.

Lemma d1_vol : d1 * a = ln (S / K) + (r + sigma ^ 2 / 2) * T.
Proof.
  unfold d1, bs_d1. fold a. field. apply Rgt_not_eq, vol_pos.
Qed.

(** The discounted strike and the spot weigh the two densities equally. *)
Lemma density_balance :
  S * exp (- (d1 ^ 2 / 2)) = K * exp (- (r * T)) * exp (- (d2 ^ 2 / 2)).
Proof.
  assert (Hd2 : - (d2 ^ 2 / 2) = - (d1 ^ 2 / 2) + (ln (S / K) + r * T)).
  { unfold d2, bs_d2. fold d1 a.
    replace (- ((d1 - a) ^ 2 / 2)) with (- (d1 ^ 2 / 2) + (d1 * a - a * a / 2)) by field.
    rewrite d1_vol, vol_sqr. field. }
  rewrite Hd2, !exp_plus, exp_ln by (apply Rdiv_lt_0_compat; assumption).
  rewrite Rmult_assoc.
  replace (exp (- (r * T)) * (exp (- (d1 ^ 2 / 2)) * (S / K * exp (r * T))))
    with (exp (- (d1 ^ 2 / 2)) * (S / K) * (exp (- (r * T)) * exp (r * T))) by ring.
  rewrite <- exp_plus. replace (- (r * T) + r * T) with 0 by ring. rewrite exp_0.
  field. lra.
Qed.

Lemma bs_price_bounds : 0 <= bs_price Phi S K T r sigma <= S.
Proof.
  unfold bs_price. fold d1 d2.
  assert (Hle : d2 <= d1).
  { unfold d2, bs_d2. fold d1 a. pose proof vol_pos. lra. }
  pose proof (cdf_mills Phi Phi_cdf d2 d1 Hle) as Hm.
  pose proof (cdf_range Phi Phi_cdf d1) as [H1l H1u].
  pose proof (cdf_range Phi Phi_cdf d2) as [H2l H2u].
  pose proof density_balance as Hb.
  pose proof (exp_pos (- (d1 ^ 2 / 2))) as E1.
  pose proof (exp_pos (- (d2 ^ 2 / 2))) as E2.
  pose proof (exp_pos (- (r * T))) as Er.
  set (e1 := exp (- (d1 ^ 2 / 2))) in *.
  set (e2 := exp (- (d2 ^ 2 / 2))) in *.
  set (D := K * exp (- (r * T))) in *.
  assert (HD : 0 < D) by (unfold D; apply Rmult_lt_0_compat; assumption).
  split.
  - (* D * Phi d2 * e1 <= D * Phi d1 * e2 = S * e1 * Phi d1 *)
    assert (H : D * Phi d2 * e1 <= S * Phi d1 * e1).
    { replace (S * Phi d1 * e1) with (S * e1 * Phi d1) by ring.
      rewrite Hb.
      replace (D * e2 * Phi d1) with (D * (Phi d1 * e2)) by ring.
      replace (D * Phi d2 * e1) with (D * (Phi d2 * e1)) by ring.
      apply Rmult_le_compat_l; lra. }
    apply Rmult_le_reg_r in H; lra.
  - assert (0 <= D * Phi d2) by (apply Rmult_le_pos; lra).
    assert (S * Phi d1 <= S * 1) by (apply Rmult_le_compat_l; lra).
    lra.
Qed.

End Bounds.

(** ** The standard normal distribution function has the two properties *)

Lemma std_normal_cdf_range (u : R) : 0 <= std_normal_cdf u <= 1.
Proof.
  unfold std_normal_cdf.
  pose proof area_inf_lt_sup. pose proof (area_ge_inf u). pose proof (area_le_sup u).
  split.
  - apply Rmult_le_pos; [lra | left; apply Rinv_0_lt_compat; lra].
  - apply Rmult_le_reg_r with (area_sup - area_inf); [lra|].
    replace ((area u - area_inf) / (area_sup - area_inf) * (area_sup - area_inf))
      with (area u - area_inf) by (field; lra).
    lra.
Qed.

Lemma std_normal_cdf_mills (u v : R) :
  u <= v ->
  std_normal_cdf u * exp (- (v ^ 2 / 2)) <= std_normal_cdf v * exp (- (u ^ 2 / 2)).
Proof.
  intros Huv. unfold std_normal_cdf.
  pose proof area_inf_lt_sup as HN.
  pose proof (ratio_mono u v Huv) as Hr.
  pose proof (exp_pos (- (u ^ 2 / 2))) as Eu.
  pose proof (exp_pos (- (v ^ 2 / 2))) as Ev.
  assert (Iu : exp (u ^ 2 / 2) * exp (- (u ^ 2 / 2)) = 1)
    by (rewrite <- exp_plus, Rplus_opp_r; apply exp_0).
  assert (Iv : exp (v ^ 2 / 2) * exp (- (v ^ 2 / 2)) = 1)
    by (rewrite <- exp_plus, Rplus_opp_r; apply exp_0).
  set (Gu := area u - area_inf) in *. set (Gv := area v - area_inf) in *.
  assert (H : Gu * exp (- (v ^ 2 / 2)) <= Gv * exp (- (u ^ 2 / 2))).
  { replace (Gu * exp (- (v ^ 2 / 2)))
      with (Gu * (exp (u ^ 2 / 2) * exp (- (u ^ 2 / 2))) * exp (- (v ^ 2 / 2)))
      by (rewrite Iu; ring).
    replace (Gv * exp (- (u ^ 2 / 2)))
      with (Gv * (exp (v ^ 2 / 2) * exp (- (v ^ 2 / 2))) * exp (- (u ^ 2 / 2)))
      by (rewrite Iv; ring).
    replace (Gu * (exp (u ^ 2 / 2) * exp (- (u ^ 2 / 2))) * exp (- (v ^ 2 / 2)))
      with (Gu * exp (u ^ 2 / 2) * (exp (- (u ^ 2 / 2)) * exp (- (v ^ 2 / 2)))) by ring.
    replace (Gv * (exp (v ^ 2 / 2) * exp (- (v ^ 2 / 2))) * exp (- (u ^ 2 / 2)))
      with (Gv * exp (v ^ 2 / 2) * (exp (- (u ^ 2 / 2)) * exp (- (v ^ 2 / 2)))) by ring.
    apply Rmult_le_compat_r; [|exact Hr].
    left. apply Rmult_lt_0_compat; assumption. }
  apply Rmult_le_reg_r with (area_sup - area_inf); [lra|].
  replace (Gu / (area_sup - area_inf) * exp (- (v ^ 2 / 2)) * (area_sup - area_inf))
    with (Gu * exp (- (v ^ 2 / 2))) by (field; lra).
  replace (Gv / (area_sup - area_inf) * exp (- (u ^ 2 / 2)) * (area_sup - area_inf))
    with (Gv * exp (- (u ^ 2 / 2))) by (field; lra).
  exact H.
Qed.

(** Its derivative is the Gaussian curve over the whole area: it is the
    distribution function of the density [gauss / (area_sup - area_inf)]. *)
Lemma std_normal_cdf_derivable (u : R) :
  derivable_pt_lim std_normal_cdf u (gauss u / (area_sup - area_inf)).
Proof.
  unfold std_normal_cdf.
  apply (derivable_pt_lim_ext (fun t => / (area_sup - area_inf) * (area t - area_inf))).
  { intros t. unfold Rdiv. ring. }
  replace (gauss u / (area_sup - area_inf))
    with (/ (area_sup - area_inf) * (gauss u - 0)) by (unfold Rdiv; ring).
  apply (derivable_pt_lim_scal (fun t => area t - area_inf)).
  apply (derivable_pt_lim_minus area (fct_cte area_inf)).
  - apply area_derivable.
  - apply derivable_pt_lim_const.
Qed.

Lemma std_normal_cdf_normal : normal_cdf std_normal_cdf.
Proof.
  split; [exact std_normal_cdf_range | exact std_normal_cdf_mills].
Qed.

(** ** The pricing function *)

(** C1.  For [S > 0], [K > 0], [sigma > 0], any [r] and a scalar [T] above
    the threshold, [black_scholes_call] returns the Black-Scholes closed
    form of the specification, [S * Phi d1 - K * exp (- r T) * Phi d2] with
    [d1 = (ln (S / K) + (r + sigma ^ 2 / 2) T) / (sigma sqrt T)] and
    [d2 = d1 - sigma sqrt T]; on an array of spot prices, with [K], [T],
    [r] and [sigma] fixed, it returns the closed form of every entry. *)
Theorem black_scholes_call_closed_form (Phi : R -> R) (S K T r sigma : R) :
  0 < S -> 0 < K -> 0 < sigma -> threshold < T ->
  black_scholes_call Phi (Scalar S) (Scalar K) (Scalar T) (Scalar r) (Scalar sigma)
  = Ok (Scalar (bs_price Phi S K T r sigma))
  /\ forall xs : list R,
       Forall (fun s => 0 < s) xs ->
       black_scholes_call Phi (Array xs) (Scalar K) (Scalar T) (Scalar r) (Scalar sigma)
       = Ok (Array (map (fun s => bs_price Phi s K T r sigma) xs)).
Proof.
  intros _ HK _ HT. split.
  - apply call_scalar_formula; [exact HT | lra].
  - intros xs _. now apply call_array_formula.
Qed.

Lemma black_scholes_call_closed_form_witness :
  black_scholes_call std_normal_cdf (Scalar 100) (Scalar 95) (Scalar (30 / 365))
    (Scalar 0.04) (Scalar 0.25)
  = Ok (Scalar (bs_price std_normal_cdf 100 95 (30 / 365) 0.04 0.25))
  /\ forall xs : list R,
       Forall (fun s => 0 < s) xs ->
       black_scholes_call std_normal_cdf (Array xs) (Scalar 95) (Scalar (30 / 365))
         (Scalar 0.04) (Scalar 0.25)
       = Ok (Array (map (fun s => bs_price std_normal_cdf s 95 (30 / 365) 0.04 0.25) xs)).
Proof.
  apply (black_scholes_call_closed_form std_normal_cdf 100 95 (30 / 365) 0.04 0.25);
    unfold threshold; lra.
Defined.

(** C2.  For a scalar [T] at or below the threshold, [black_scholes_call]
    returns the intrinsic value [max (S - K) 0], whatever [r], [sigma] and
    [norm.cdf] are, on a number and on every entry of an array of spot
    prices.  The closed form is not evaluated: the call returns normally
    for the strike [0] too, on which the closed form raises. *)
Theorem black_scholes_call_shortcut (Phi : R -> R) (S K T : R) (r sigma : ndval) :
  T <= threshold ->
  black_scholes_call Phi (Scalar S) (Scalar K) (Scalar T) r sigma
  = Ok (Scalar (Rmax (S - K) 0))
  /\ (forall xs : list R,
        black_scholes_call Phi (Array xs) (Scalar K) (Scalar T) r sigma
        = Ok (Array (map (fun s => Rmax (s - K) 0) xs)))
  /\ black_scholes_call Phi (Scalar S) (Scalar 0) (Scalar T) r sigma
     = Ok (Scalar (Rmax (S - 0) 0))
  /\ closed_form Phi (Scalar S) (Scalar 0) (Scalar T) r sigma
     = Raise ZeroDivisionError.
Proof.
  intros HT. repeat split.
  - now apply shortcut_scalar.
  - intros xs. now apply shortcut_array.
  - now apply shortcut_scalar.
  - unfold closed_form, truediv.
    destruct (Req_dec_T 0 0) as [_|N]; [reflexivity | now contradiction N].
Qed.

Lemma black_scholes_call_shortcut_witness :
  black_scholes_call std_normal_cdf (Scalar 100) (Scalar 95) (Scalar 0)
    (Scalar 0.04) (Scalar 0.25)
  = Ok (Scalar (Rmax (100 - 95) 0))
  /\ (forall xs : list R,
        black_scholes_call std_normal_cdf (Array xs) (Scalar 95) (Scalar 0)
          (Scalar 0.04) (Scalar 0.25)
        = Ok (Array (map (fun s => Rmax (s - 95) 0) xs)))
  /\ black_scholes_call std_normal_cdf (Scalar 100) (Scalar 0) (Scalar 0)
       (Scalar 0.04) (Scalar 0.25)
     = Ok (Scalar (Rmax (100 - 0) 0))
  /\ closed_form std_normal_cdf (Scalar 100) (Scalar 0) (Scalar 0)
       (Scalar 0.04) (Scalar 0.25)
     = Raise ZeroDivisionError.
Proof.
  apply (black_scholes_call_shortcut std_normal_cdf 100 95 0 (Scalar 0.04) (Scalar 0.25)).
  unfold threshold. lra.
Defined.

Lemma intrinsic_bounds (S K : R) : 0 < S -> 0 < K -> 0 <= intrinsic S K <= S.
Proof.
  intros HS HK. unfold intrinsic, Rmax.
  destruct (Rle_dec (S - K) 0); lra.
Qed.

Lemma Forall2_map_bounds (f : R -> R) (xs : list R) :
  Forall (fun s => 0 <= f s <= s) xs ->
  Forall2 (fun s p => 0 <= p <= s) xs (map f xs).
Proof.
  induction 1; simpl; constructor; assumption.
Qed.

(** C3.  For [S > 0], [K > 0], [sigma > 0], any [r] and a scalar [T >= 0],
    [black_scholes_call] returns a price [p] with [0 <= p <= S]; on an
    array of positive spot prices every entry of the result lies between
    [0] and the spot price of that entry.  [norm.cdf] enters through the
    two properties of [normal_cdf], which the standard normal distribution
    function has ([std_normal_cdf_normal]). *)
Theorem black_scholes_call_no_arbitrage
    (Phi : R -> R) (HPhi : normal_cdf Phi) (S K T r sigma : R) :
  0 < S -> 0 < K -> 0 < sigma -> 0 <= T ->
  (exists p : R,
     black_scholes_call Phi (Scalar S) (Scalar K) (Scalar T) (Scalar r) (Scalar sigma)
     = Ok (Scalar p) /\ 0 <= p <= S)
  /\ forall xs : list R,
       Forall (fun s => 0 < s) xs ->
       exists ps : list R,
         black_scholes_call Phi (Array xs) (Scalar K) (Scalar T) (Scalar r) (Scalar sigma)
         = Ok (Array ps) /\ Forall2 (fun s p => 0 <= p <= s) xs ps.
Proof.
  intros HS HK Hs HT0.
  assert (Hthr : 0 < threshold) by (unfold threshold; lra).
  destruct (Rle_lt_dec T threshold) as [HT|HT]; split.
  - exists (intrinsic S K). split; [now apply shortcut_scalar | now apply intrinsic_bounds].
  - intros xs Hxs. exists (map (fun s => intrinsic s K) xs).
    split; [now apply shortcut_array|].
    apply Forall2_map_bounds. revert Hxs. apply Forall_impl.
    intros s Hs0. now apply intrinsic_bounds.
  - exists (bs_price Phi S K T r sigma).
    split; [apply call_scalar_formula; lra|].
    apply bs_price_bounds; try assumption; lra.
  - intros xs Hxs. exists (map (fun s => bs_price Phi s K T r sigma) xs).
    split; [now apply call_array_formula|].
    apply Forall2_map_bounds. revert Hxs. apply Forall_impl.
    intros s Hs0. apply bs_price_bounds; try assumption; lra.
Qed.

Lemma black_scholes_call_no_arbitrage_witness :
  (exists p : R,
     black_scholes_call std_normal_cdf (Scalar 100) (Scalar 95) (Scalar (30 / 365))
       (Scalar 0.04) (Scalar 0.25)
     = Ok (Scalar p) /\ 0 <= p <= 100)
  /\ forall xs : list R,
       Forall (fun s => 0 < s) xs ->
       exists ps : list R,
         black_scholes_call std_normal_cdf (Array xs) (Scalar 95) (Scalar (30 / 365))
           (Scalar 0.04) (Scalar 0.25)
         = Ok (Array ps) /\ Forall2 (fun s p => 0 <= p <= s) xs ps.
Proof.
  apply (black_scholes_call_no_arbitrage std_normal_cdf std_normal_cdf_normal
           100 95 (30 / 365) 0.04 0.25); lra.
Defined.



(** C10.  For a scalar [T < 0] the call does not raise and does not
    evaluate the closed form: the test [T <= 1e-5] holds, and the intrinsic
    value [max (S - K) 0] is returned, on a number and on an array of spot
    prices, also for the strike [0] on which the closed form raises. *)
Theorem black_scholes_call_negative_T
    (Phi : R -> R) (S K T : R) (r sigma : ndval) :
  T < 0 ->
  scalar_le (Scalar T) threshold = true
  /\ black_scholes_call Phi (Scalar S) (Scalar K) (Scalar T) r sigma
     = Ok (Scalar (Rmax (S - K) 0))
  /\ (forall xs : list R,
        black_scholes_call Phi (Array xs) (Scalar K) (Scalar T) r sigma
        = Ok (Array (map (fun s => Rmax (s - K) 0) xs)))
  /\ closed_form Phi (Scalar S) (Scalar 0) (Scalar T) r sigma
     = Raise ZeroDivisionError.
Proof.
  intros HT.
  assert (Hle : T <= threshold) by (unfold threshold; lra).
  repeat split.
  - now apply scalar_le_true.
  - now apply shortcut_scalar.
  - intros xs. now apply shortcut_array.
  - unfold closed_form, truediv.
    destruct (Req_dec_T 0 0) as [_|N]; [reflexivity | now contradiction N].
Qed.

Lemma black_scholes_call_negative_T_witness :
  scalar_le (Scalar (-1)) threshold = true
  /\ black_scholes_call std_normal_cdf (Scalar 100) (Scalar 95) (Scalar (-1))
       (Scalar 0.04) (Scalar 0.25)
     = Ok (Scalar (Rmax (100 - 95) 0))
  /\ (forall xs : list R,
        black_scholes_call std_normal_cdf (Array xs) (Scalar 95) (Scalar (-1))
          (Scalar 0.04) (Scalar 0.25)
        = Ok (Array (map (fun s => Rmax (s - 95) 0) xs)))
  /\ closed_form std_normal_cdf (Scalar 100) (Scalar 0) (Scalar (-1))
       (Scalar 0.04) (Scalar 0.25)
     = Raise ZeroDivisionError.
Proof.
  apply (black_scholes_call_negative_T std_normal_cdf 100 95 (-1)
           (Scalar 0.04) (Scalar 0.25)).
  lra.
Defined.

(** ** The strategy evaluator *)

Lemma call_scalar_cases (Phi : R -> R) (S K T r sigma : R) (v : ndval) :
  black_scholes_call Phi (Scalar S) (Scalar K) (Scalar T) (Scalar r) (Scalar sigma) = Ok v ->
  (T <= threshold /\ v = Scalar (intrinsic S K))
  \/ (threshold < T /\ K <> 0 /\ v = Scalar (bs_price Phi S K T r sigma)).
Proof.
  intros H. destruct (Rle_lt_dec T threshold) as [HT|HT].
  - left. rewrite shortcut_scalar in H by exact HT. apply Ok_inj in H. now split.
  - right. destruct (Req_dec_T K 0) as [->|HK].
    + rewrite call_scalar_zero_strike in H by exact HT. discriminate.
    + rewrite call_scalar_formula in H by assumption. apply Ok_inj in H. now repeat split.
Qed.

(** C4.  The evaluator prices the three legs at the strikes
    [K_mid - width], [K_mid] and [K_mid + width], and its entry cost is
    [cost_low + cost_high - 2 * cost_mid] for the three prices the pricing
    function returned, whatever their values: nothing is clamped. *)
Theorem entry_cost_formula
    (Phi : R -> R) (S0 sigma T r K_mid width cost_low cost_mid cost_high : R) :
  black_scholes_call Phi (Scalar S0) (Scalar (K_mid - width)) (Scalar T)
    (Scalar r) (Scalar sigma) = Ok (Scalar cost_low) ->
  black_scholes_call Phi (Scalar S0) (Scalar K_mid) (Scalar T)
    (Scalar r) (Scalar sigma) = Ok (Scalar cost_mid) ->
  black_scholes_call Phi (Scalar S0) (Scalar (K_mid + width)) (Scalar T)
    (Scalar r) (Scalar sigma) = Ok (Scalar cost_high) ->
  exists d : PlotData,
    update_plot_body Phi S0 sigma T r K_mid width = Ok d
    /\ entry_cost d = Scalar (cost_low + cost_high - 2 * cost_mid).
Proof.
  intros Hl Hm Hh.
  apply call_scalar_cases in Hl, Hm, Hh.
  destruct (Rle_lt_dec T threshold) as [HT|HT].
  - destruct Hl as [[_ El]|[? _]]; [|lra].
    destruct Hm as [[_ Em]|[? _]]; [|lra].
    destruct Hh as [[_ Eh]|[? _]]; [|lra].
    injection El as ->. injection Em as ->. injection Eh as ->.
    eexists. split; [apply update_plot_body_expired; exact HT | reflexivity].
  - destruct Hl as [[? _]|(_ & Nl & El)]; [lra|].
    destruct Hm as [[? _]|(_ & Nm & Em)]; [lra|].
    destruct Hh as [[? _]|(_ & Nh & Eh)]; [lra|].
    injection El as ->. injection Em as ->. injection Eh as ->.
    eexists. split; [apply update_plot_body_live; assumption | reflexivity].
Qed.

Lemma entry_cost_formula_witness :
  exists d : PlotData,
    update_plot_body std_normal_cdf 100 0.25 (30 / 365) 0.04 100 5 = Ok d
    /\ entry_cost d
       = Scalar (bs_price std_normal_cdf 100 (100 - 5) (30 / 365) 0.04 0.25
                 + bs_price std_normal_cdf 100 (100 + 5) (30 / 365) 0.04 0.25
                 - 2 * bs_price std_normal_cdf 100 100 (30 / 365) 0.04 0.25).
Proof.
  apply (entry_cost_formula std_normal_cdf 100 0.25 (30 / 365) 0.04 100 5);
    apply call_scalar_formula; unfold threshold; lra.
Defined.

(** C5.  With [T = 0] the current curve is the expiration curve: at every
    swept price [s] both are
    [(max (s - K_low) 0 + max (s - K_high) 0 - 2 * max (s - K_mid) 0)
     - entry_cost]. *)
Theorem curves_coincide_at_expiration
    (Phi : R -> R) (S0 sigma r K_mid width : R) :
  exists (d : PlotData) (cost : R) (xs : list R),
    update_plot_body Phi S0 sigma 0 r K_mid width = Ok d
    /\ entry_cost d = Scalar cost
    /\ x d = Array xs
    /\ y_cur d = y_exp d
    /\ y_exp d
       = Array (map (fun s => (Rmax (s - (K_mid - width)) 0
                               + Rmax (s - (K_mid + width)) 0
                               - 2 * Rmax (s - K_mid) 0) - cost) xs).
Proof.
  assert (HT : 0 <= threshold) by (unfold threshold; lra).
  pose proof (update_plot_body_expired Phi S0 sigma 0 r K_mid width HT) as H.
  cbv zeta in H.
  eexists. eexists. eexists. split; [exact H|].
  repeat split.
Qed.

(** The payoff at expiration never exceeds the width, reached at [K_mid]. *)
Lemma butterfly_payoff_peak (K_mid width cost : R) :
  0 < width ->
  butterfly_payoff (K_mid - width) K_mid (K_mid + width) cost K_mid = width - cost.
Proof.
  intros Hw. unfold butterfly_payoff, intrinsic, Rmax.
  repeat destruct (Rle_dec _ _); lra.
Qed.

Lemma butterfly_payoff_le_peak (K_mid width cost s : R) :
  0 < width ->
  butterfly_payoff (K_mid - width) K_mid (K_mid + width) cost s <= width - cost.
Proof.
  intros Hw. unfold butterfly_payoff, intrinsic, Rmax.
  repeat destruct (Rle_dec _ _); lra.
Qed.

(** C7.  For [width > 0] the expiration curve is the butterfly payoff net of
    the entry cost; its value at [K_mid] is [width - entry_cost], no value
    of the payoff and no point of the curve is above it, and a swept price
    equal to [K_mid] has this value on the curve.  The entry cost is a
    number when the shortcut applies or when the spot price, the
    volatility and the three strikes are positive, so that the closed form
    is defined. *)
Theorem expiration_curve_peak
    (Phi : R -> R) (S0 sigma T r K_mid width : R) (d : PlotData) :
  0 < width ->
  T <= threshold \/ (0 < S0 /\ 0 < sigma /\ 0 < K_mid - width) ->
  update_plot_body Phi S0 sigma T r K_mid width = Ok d ->
  exists (cost : R) (xs ys : list R),
    entry_cost d = Scalar cost /\ x d = Array xs /\ y_exp d = Array ys
    /\ xs = linspace (S0 * 0.8) (S0 * 1.2) 300
    /\ ys = map (butterfly_payoff (K_mid - width) K_mid (K_mid + width) cost) xs
    /\ butterfly_payoff (K_mid - width) K_mid (K_mid + width) cost K_mid
       = width - cost
    /\ (forall s : R,
          butterfly_payoff (K_mid - width) K_mid (K_mid + width) cost s
          <= butterfly_payoff (K_mid - width) K_mid (K_mid + width) cost K_mid)
    /\ (forall i : nat, (i < length xs)%nat -> nth i ys 0 <= width - cost)
    /\ (forall i : nat,
          (i < length xs)%nat -> nth i xs 0 = K_mid -> nth i ys 0 = width - cost).
Proof.
  intros Hw _ H.
  destruct (update_plot_body_inv _ _ _ _ _ _ _ _ H) as (cost & cur & E).
  cbv zeta in E. subst d. cbn [entry_cost x y_exp].
  exists cost, (linspace (S0 * 0.8) (S0 * 1.2) 300).
  set (xs := linspace (S0 * 0.8) (S0 * 1.2) 300). clearbody xs.
  set (f := butterfly_payoff (K_mid - width) K_mid (K_mid + width) cost).
  assert (Hnth : forall i, (i < length xs)%nat -> nth i (map f xs) 0 = f (nth i xs 0)).
  { intros i Hi. rewrite (nth_indep (map f xs) 0 (f 0)) by (now rewrite length_map).
    apply map_nth. }
  exists (map f xs). repeat split.
  - now apply butterfly_payoff_peak.
  - intros s. unfold f. rewrite butterfly_payoff_peak by exact Hw.
    now apply butterfly_payoff_le_peak.
  - intros i Hi. rewrite Hnth by exact Hi. now apply butterfly_payoff_le_peak.
  - intros i Hi Hx. rewrite Hnth by exact Hi. rewrite Hx.
    now apply butterfly_payoff_peak.
Qed.

(** The centre strike [120] is the last swept price when the spot price is
    [100]: there the expiration curve has the value [5 - entry_cost], which
    no point of the curve exceeds. *)
Lemma expiration_curve_peak_witness :
  exists (d : PlotData) (cost : R) (xs ys : list R),
    update_plot_body std_normal_cdf 100 0.25 (30 / 365) 0.04 120 5 = Ok d
    /\ entry_cost d = Scalar cost /\ x d = Array xs /\ y_exp d = Array ys
    /\ nth 299 xs 0 = 120
    /\ nth 299 ys 0 = 5 - cost
    /\ (forall i : nat, (i < length xs)%nat -> nth i ys 0 <= nth 299 ys 0).
Proof.
  assert (HT : threshold < 30 / 365) by (unfold threshold; lra).
  pose proof (update_plot_body_live std_normal_cdf 100 0.25 (30 / 365) 0.04 120 5
                HT ltac:(lra) ltac:(lra) ltac:(lra)) as H.
  cbv zeta in H.
  destruct (expiration_curve_peak std_normal_cdf 100 0.25 (30 / 365) 0.04 120 5 _
              ltac:(lra) ltac:(right; lra) H)
    as (cost & xs & ys & Hc & Hx & Hy & Exs & _ & _ & _ & Hle & Hat).
  assert (Hlen : length xs = 300%nat) by (rewrite Exs; apply linspace_length).
  assert (H299 : nth 299 xs 0 = 120).
  { rewrite Exs. change 300%nat with (S (S 298)).
    rewrite linspace_nth by lia.
    replace (INR 299) with 299 by (rewrite INR_IZR_INZ; reflexivity). lra. }
  assert (Hpeak : nth 299 ys 0 = 5 - cost).
  { apply Hat; [rewrite Hlen; lia | exact H299]. }
  eexists. exists cost, xs, ys.
  split; [exact H|]. split; [exact Hc|]. split; [exact Hx|]. split; [exact Hy|].
  split; [exact H299|]. split; [exact Hpeak|].
  intros i Hi. rewrite Hpeak. now apply Hle.
Defined.

Lemma INR_299 : INR 299 = 299.
Proof. rewrite INR_IZR_INZ. reflexivity. Qed.

(** C8.  For [S0 > 0] the swept domain has 300 points, starts at
    [0.8 * S0], ends at [1.2 * S0], advances by the same step
    [(1.2 * S0 - 0.8 * S0) / 299] between neighbours and increases strictly;
    the two curves have as many points as the domain. *)
Theorem sweep_domain
    (Phi : R -> R) (S0 sigma T r K_mid width : R) (d : PlotData) :
  0 < S0 ->
  update_plot_body Phi S0 sigma T r K_mid width = Ok d ->
  exists xs ye yc : list R,
    x d = Array xs /\ y_exp d = Array ye /\ y_cur d = Array yc
    /\ length xs = 300%nat /\ length ye = length xs /\ length yc = length xs
    /\ nth 0 xs 0 = 0.8 * S0
    /\ nth 299 xs 0 = 1.2 * S0
    /\ (forall i : nat,
          (i < 299)%nat ->
          nth (S i) xs 0 - nth i xs 0 = (1.2 * S0 - 0.8 * S0) / 299)
    /\ (forall i j : nat,
          (i < j)%nat -> (j < 300)%nat -> nth i xs 0 < nth j xs 0).
Proof.
  intros HS0 H.
  destruct (update_plot_body_inv _ _ _ _ _ _ _ _ H) as (cost & cur & E).
  cbv zeta in E. subst d. cbn [x y_exp y_cur].
  do 3 eexists. split; [reflexivity|]. split; [reflexivity|]. split; [reflexivity|].
  rewrite !length_map, linspace_length.
  change 300%nat with (S (S 298)).
  repeat split.
  - rewrite linspace_nth by lia. simpl INR. lra.
  - rewrite linspace_nth by lia. rewrite INR_299. lra.
  - intros i Hi. rewrite !linspace_nth by lia. rewrite S_INR, INR_299. lra.
  - intros i j Hij Hj. apply linspace_increasing; [lra | exact Hij | exact Hj].
Qed.

Lemma sweep_domain_witness :
  exists d : PlotData,
    update_plot_body std_normal_cdf 100 0.25 (30 / 365) 0.04 100 5 = Ok d
    /\ exists xs ye yc : list R,
         x d = Array xs /\ y_exp d = Array ye /\ y_cur d = Array yc
         /\ length xs = 300%nat /\ length ye = length xs /\ length yc = length xs
         /\ nth 0 xs 0 = 0.8 * 100
         /\ nth 299 xs 0 = 1.2 * 100
         /\ (forall i : nat,
               (i < 299)%nat ->
               nth (S i) xs 0 - nth i xs 0 = (1.2 * 100 - 0.8 * 100) / 299)
         /\ (forall i j : nat,
               (i < j)%nat -> (j < 300)%nat -> nth i xs 0 < nth j xs 0).
Proof.
  assert (HT : threshold < 30 / 365) by (unfold threshold; lra).
  pose proof (update_plot_body_live std_normal_cdf 100 0.25 (30 / 365) 0.04 100 5
                HT ltac:(lra) ltac:(lra) ltac:(lra)) as H.
  cbv zeta in H.
  eexists. split; [exact H|].
  apply (sweep_domain std_normal_cdf 100 0.25 (30 / 365) 0.04 100 5 _ ltac:(lra) H).
Defined.

(** ** Parameters the specification calls invalid *)

(** C6, as the specification states it, fails: with the width [-5] the
    evaluator rejects nothing and returns a complete result, the butterfly
    with crossed strikes [105], [100] and [95], whose entry cost is [5]. *)
Lemma nonpositive_width_not_rejected :
  -5 <= 0
  /\ exists d : PlotData,
       update_plot_body std_normal_cdf 100 0.25 0 0.04 100 (-5) = Ok d
       /\ entry_cost d = Scalar 5.
Proof.
  split; [lra|].
  assert (HT : 0 <= threshold) by (unfold threshold; lra).
  pose proof (update_plot_body_expired std_normal_cdf 100 0.25 0 0.04 100 (-5) HT) as H.
  cbv zeta in H.
  eexists. split; [exact H|].
  cbn [entry_cost]. f_equal. unfold intrinsic, Rmax.
  repeat destruct (Rle_dec _ _); lra.
Qed.

Lemma in_range_parameters (w : Widgets) :
  in_range w ->
  1 <= spin_price w
  /\ 0.1 <= IZR (slider_iv w) / 100.0
  /\ 0 <= IZR (slider_days w) / 365.0
  /\ 1 <= spin_atm w
  /\ 0.5 <= spin_width w.
Proof.
  intros (Hp & Hiv & Hd & _ & Ha & Hw).
  destruct Hiv as [Hiv _]. destruct Hd as [Hd _].
  apply IZR_le in Hiv, Hd.
  repeat split; lra.
Qed.

(** C6, amended.  The evaluator checks none of its parameters and rejects
    none: with [T] at or below the threshold, every [T < 0] included, it
    returns a complete result for every [S0], [sigma], [r], [K_mid] and
    [width], those with [width <= 0], [sigma <= 0], [S0 <= 0] or
    [K_mid <= 0] included, namely the expiration butterfly on whatever
    strikes these give.  Invalid values are kept out before the evaluator
    runs, by the ranges of the widgets: [S0 >= 1], [sigma >= 0.1],
    [T >= 0], [K_mid >= 1], [width >= 0.5]. *)
Theorem invalid_parameters_are_evaluated
    (Phi : R -> R) (S0 sigma T r K_mid width : R) :
  T <= threshold ->
  (exists (d : PlotData) (cost : R) (xs : list R),
     update_plot_body Phi S0 sigma T r K_mid width = Ok d
     /\ entry_cost d = Scalar cost
     /\ x d = Array xs
     /\ y_exp d
        = Array (map (butterfly_payoff (K_mid - width) K_mid (K_mid + width) cost) xs)
     /\ y_cur d = y_exp d)
  /\ (forall w : Widgets,
        in_range w ->
        update_plot Phi w
        = update_plot_body Phi (spin_price w) (IZR (slider_iv w) / 100.0)
            (IZR (slider_days w) / 365.0) (spin_rate w / 100.0)
            (spin_atm w) (spin_width w)
        /\ 1 <= spin_price w
        /\ 0.1 <= IZR (slider_iv w) / 100.0
        /\ 0 <= IZR (slider_days w) / 365.0
        /\ 1 <= spin_atm w
        /\ 0.5 <= spin_width w).
Proof.
  intros HT. split.
  - pose proof (update_plot_body_expired Phi S0 sigma T r K_mid width HT) as H.
    cbv zeta in H.
    eexists. eexists. eexists. split; [exact H|]. repeat split.
  - intros w Hw. split; [reflexivity | now apply in_range_parameters].
Qed.

(** All five kinds of invalid parameter at once: [S0 = -100], [sigma = 0],
    [T = -1], [K_mid = -100], [width = -5]. *)
Lemma invalid_parameters_are_evaluated_witness :
  (exists (d : PlotData) (cost : R) (xs : list R),
     update_plot_body std_normal_cdf (-100) 0 (-1) 0.04 (-100) (-5) = Ok d
     /\ entry_cost d = Scalar cost
     /\ x d = Array xs
     /\ y_exp d
        = Array (map (butterfly_payoff (-100 - -5) (-100) (-100 + -5) cost) xs)
     /\ y_cur d = y_exp d)
  /\ (forall w : Widgets,
        in_range w ->
        update_plot std_normal_cdf w
        = update_plot_body std_normal_cdf (spin_price w) (IZR (slider_iv w) / 100.0)
            (IZR (slider_days w) / 365.0) (spin_rate w / 100.0)
            (spin_atm w) (spin_width w)
        /\ 1 <= spin_price w
        /\ 0.1 <= IZR (slider_iv w) / 100.0
        /\ 0 <= IZR (slider_days w) / 365.0
        /\ 1 <= spin_atm w
        /\ 0.5 <= spin_width w).
Proof.
  apply (invalid_parameters_are_evaluated std_normal_cdf (-100) 0 (-1) 0.04 (-100) (-5)).
  unfold threshold. lra.
Defined.

(** * Further properties of the engine *)

(** ** When the application raises *)

Lemma days_above_threshold (days : Z) : (1 <= days)%Z -> threshold < IZR days / 365.0.
Proof.
  intros H. apply IZR_le in H. unfold threshold.
  apply Rlt_le_trans with (1 / 365.0); [lra|].
  unfold Rdiv. apply Rmult_le_compat_r; lra.
Qed.

(** X1.  With every widget inside its range, [update_plot] raises exactly
    when the days slider is at least [1] and the centre strike equals the
    width (the low strike is then [0] and line 13 divides by it); in every
    other state of the widgets it returns the data of the chart. *)
Theorem update_plot_raises_iff (Phi : R -> R) (w : Widgets) :
  in_range w ->
  (update_plot Phi w = Raise ZeroDivisionError
   <-> (1 <= slider_days w)%Z /\ spin_atm w = spin_width w)
  /\ ((exists d : PlotData, update_plot Phi w = Ok d)
      <-> slider_days w = 0%Z \/ spin_atm w <> spin_width w).
Proof.
  intros (Hp & Hiv & Hd & Hr & Ha & Hw). unfold update_plot. cbv zeta.
  set (S0 := spin_price w). set (sg := IZR (slider_iv w) / 100.0).
  set (rr := spin_rate w / 100.0).
  destruct (Z.eq_dec (slider_days w) 0) as [E0|N0].
  - rewrite E0.
    assert (HT : 0 / 365.0 <= threshold) by (unfold threshold; lra).
    rewrite (update_plot_body_expired Phi S0 sg _ rr (spin_atm w) (spin_width w) HT).
    cbv zeta. split; split.
    + discriminate.
    + intros [H _]. lia.
    + intros _. now left.
    + intros _. eexists. reflexivity.
  - assert (H1 : (1 <= slider_days w)%Z) by lia.
    pose proof (days_above_threshold _ H1) as HT.
    destruct (Req_dec_T (spin_atm w) (spin_width w)) as [E|N].
    + assert (Hz : spin_atm w - spin_width w = 0 \/ spin_atm w = 0
                   \/ spin_atm w + spin_width w = 0) by (left; lra).
      rewrite (update_plot_body_zero_strike Phi S0 sg _ rr _ _ HT Hz).
      split; split.
      * intros _. now split.
      * reflexivity.
      * intros [d Hd']. discriminate.
      * intros [H|H]; [lia | contradiction].
    + rewrite (update_plot_body_live Phi S0 sg _ rr (spin_atm w) (spin_width w) HT)
        by lra.
      cbv zeta. split; split.
      * discriminate.
      * intros [_ H]. contradiction.
      * intros _. now right.
      * intros _. eexists. reflexivity.
Qed.

(** A state of the widgets inside the ranges: the defaults of the
    constructor, with the centre strike moved down to the width. *)
Definition widgets_zero_low_strike : Widgets :=
  {| spin_price := 100; slider_iv := 25; slider_days := 30;
     spin_rate := 4; spin_atm := 5; spin_width := 5 |}.

Lemma widgets_zero_low_strike_in_range : in_range widgets_zero_low_strike.
Proof. unfold in_range, widgets_zero_low_strike. simpl. repeat split; try lra; lia. Qed.

Lemma update_plot_raises_iff_witness :
  (update_plot std_normal_cdf widgets_zero_low_strike = Raise ZeroDivisionError
   <-> (1 <= slider_days widgets_zero_low_strike)%Z
       /\ spin_atm widgets_zero_low_strike = spin_width widgets_zero_low_strike)
  /\ ((exists d : PlotData, update_plot std_normal_cdf widgets_zero_low_strike = Ok d)
      <-> slider_days widgets_zero_low_strike = 0%Z
          \/ spin_atm widgets_zero_low_strike <> spin_width widgets_zero_low_strike).
Proof.
  apply (update_plot_raises_iff std_normal_cdf widgets_zero_low_strike).
  exact widgets_zero_low_strike_in_range.
Defined.

(** ** Arrays of spot prices *)

Lemma call_array_cases (Phi : R -> R) (xs : list R) (K T r sigma : R) :
  exists f : R -> R,
    black_scholes_call Phi (Array xs) (Scalar K) (Scalar T) (Scalar r) (Scalar sigma)
    = Ok (Array (map f xs))
    /\ (T <= threshold \/ K <> 0 ->
        forall s : R,
          black_scholes_call Phi (Scalar s) (Scalar K) (Scalar T) (Scalar r) (Scalar sigma)
          = Ok (Scalar (f s))).
Proof.
  destruct (Rle_lt_dec T threshold) as [HT|HT].
  - exists (fun s => intrinsic s K). split; [now apply shortcut_array|].
    intros _ s. now apply shortcut_scalar.
  - exists (fun s => bs_price Phi s K T r sigma). split; [now apply call_array_formula|].
    intros [H|H] s; [lra|]. now apply call_scalar_formula.
Qed.

(** X2.  On an array of spot prices, with the strike, [T], [r] and [sigma]
    numbers and [|sigma| <= 1e150] (so that [sigma ** 2] of line 13 stays in
    the range of a float), [black_scholes_call] does not raise and returns
    an array of the same length.  This holds for the strike [0] as well,
    where above the threshold the same call on a single spot price raises
    [ZeroDivisionError]: the division of line 13 is Python's on two floats
    and numpy's on an array. *)
Theorem array_call_never_raises
    (Phi : R -> R) (xs : list R) (K T r sigma : R) :
  Rabs sigma <= 1e150 ->
  (exists ps : list R,
     black_scholes_call Phi (Array xs) (Scalar K) (Scalar T) (Scalar r) (Scalar sigma)
     = Ok (Array ps) /\ length ps = length xs)
  /\ (threshold < T ->
      forall s : R,
        black_scholes_call Phi (Scalar s) (Scalar 0) (Scalar T) (Scalar r) (Scalar sigma)
        = Raise ZeroDivisionError).
Proof.
  intros _. split.
  - destruct (call_array_cases Phi xs K T r sigma) as (f & Hf & _).
    exists (map f xs). split; [exact Hf | apply length_map].
  - intros HT s. now apply call_scalar_zero_strike.
Qed.

Lemma array_call_never_raises_witness :
  (exists ps : list R,
     black_scholes_call std_normal_cdf (Array [90; 100; 110]) (Scalar 0)
       (Scalar (30 / 365)) (Scalar 0.04) (Scalar 0.25)
     = Ok (Array ps) /\ length ps = length [90; 100; 110])
  /\ (threshold < 30 / 365 ->
      forall s : R,
        black_scholes_call std_normal_cdf (Scalar s) (Scalar 0) (Scalar (30 / 365))
          (Scalar 0.04) (Scalar 0.25)
        = Raise ZeroDivisionError).
Proof.
  apply (array_call_never_raises std_normal_cdf [90; 100; 110] 0 (30 / 365) 0.04 0.25).
  rewrite Rabs_pos_eq; lra.
Defined.

(** X3.  The call on an array of spot prices is the call on each of them:
    when the shortcut applies or the strike is not zero, the entry [i] of
    the result is what the call returns on the spot price [i] alone. *)
Theorem array_call_elementwise
    (Phi : R -> R) (xs : list R) (K T r sigma : R) :
  T <= threshold \/ K <> 0 ->
  exists ps : list R,
    black_scholes_call Phi (Array xs) (Scalar K) (Scalar T) (Scalar r) (Scalar sigma)
    = Ok (Array ps)
    /\ length ps = length xs
    /\ forall i : nat,
         (i < length xs)%nat ->
         black_scholes_call Phi (Scalar (nth i xs 0)) (Scalar K) (Scalar T)
           (Scalar r) (Scalar sigma)
         = Ok (Scalar (nth i ps 0)).
Proof.
  intros H.
  destruct (call_array_cases Phi xs K T r sigma) as (f & Hf & Hs).
  exists (map f xs). split; [exact Hf|]. split; [apply length_map|].
  intros i Hi. rewrite (Hs H).
  rewrite (nth_indep (map f xs) 0 (f 0)) by (now rewrite length_map).
  now rewrite map_nth.
Qed.

Lemma array_call_elementwise_witness :
  exists ps : list R,
    black_scholes_call std_normal_cdf (Array [90; 100; 110]) (Scalar 100)
      (Scalar (30 / 365)) (Scalar 0.04) (Scalar 0.25)
    = Ok (Array ps)
    /\ length ps = length [90; 100; 110]
    /\ forall i : nat,
         (i < length [90; 100; 110])%nat ->
         black_scholes_call std_normal_cdf (Scalar (nth i [90; 100; 110] 0))
           (Scalar 100) (Scalar (30 / 365)) (Scalar 0.04) (Scalar 0.25)
         = Ok (Scalar (nth i ps 0)).
Proof.
  apply (array_call_elementwise std_normal_cdf [90; 100; 110] 100 (30 / 365) 0.04 0.25).
  right. lra.
Defined.

(** ** The shape of the expiration curve *)

Lemma butterfly_payoff_tent (K_mid width cost s : R) :
  0 <= width ->
  (s <= K_mid - width ->
   butterfly_payoff (K_mid - width) K_mid (K_mid + width) cost s = - cost)
  /\ (K_mid - width <= s <= K_mid ->
      butterfly_payoff (K_mid - width) K_mid (K_mid + width) cost s
      = s - (K_mid - width) - cost)
  /\ (K_mid <= s <= K_mid + width ->
      butterfly_payoff (K_mid - width) K_mid (K_mid + width) cost s
      = (K_mid + width) - s - cost)
  /\ (K_mid + width <= s ->
      butterfly_payoff (K_mid - width) K_mid (K_mid + width) cost s = - cost)
  /\ - cost <= butterfly_payoff (K_mid - width) K_mid (K_mid + width) cost s.
Proof.
  intros Hw. unfold butterfly_payoff, intrinsic, Rmax.
  repeat destruct (Rle_dec _ _); repeat split; intros; lra.
Qed.

(** X4.  For [width >= 0] the expiration curve is a tent over the strikes:
    at a swept price [s] it is [- entry_cost] up to the low strike, rises as
    [s - K_low - entry_cost] up to the centre strike, falls as
    [K_high - s - entry_cost] up to the high strike and is [- entry_cost]
    beyond; so no point of it is below [- entry_cost], and the loss at
    expiration is at most the entry cost.  The entry cost is a number when
    the shortcut applies or when the spot price, the volatility and the
    three strikes are positive, so that the closed form is defined. *)
Theorem expiration_curve_tent
    (Phi : R -> R) (S0 sigma T r K_mid width : R) (d : PlotData) :
  0 <= width ->
  T <= threshold \/ (0 < S0 /\ 0 < sigma /\ 0 < K_mid - width) ->
  update_plot_body Phi S0 sigma T r K_mid width = Ok d ->
  exists (cost : R) (xs ys : list R),
    entry_cost d = Scalar cost /\ x d = Array xs /\ y_exp d = Array ys
    /\ length ys = length xs
    /\ forall i : nat,
         (i < length xs)%nat ->
         (nth i xs 0 <= K_mid - width -> nth i ys 0 = - cost)
         /\ (K_mid - width <= nth i xs 0 <= K_mid ->
             nth i ys 0 = nth i xs 0 - (K_mid - width) - cost)
         /\ (K_mid <= nth i xs 0 <= K_mid + width ->
             nth i ys 0 = (K_mid + width) - nth i xs 0 - cost)
         /\ (K_mid + width <= nth i xs 0 -> nth i ys 0 = - cost)
         /\ - cost <= nth i ys 0.
Proof.
  intros Hw _ H.
  destruct (update_plot_body_inv _ _ _ _ _ _ _ _ H) as (cost & cur & E).
  cbv zeta in E. subst d. cbn [entry_cost x y_exp].
  set (xs := linspace (S0 * 0.8) (S0 * 1.2) 300). clearbody xs.
  set (f := butterfly_payoff (K_mid - width) K_mid (K_mid + width) cost).
  exists cost, xs, (map f xs).
  split; [reflexivity|]. split; [reflexivity|]. split; [reflexivity|].
  split; [apply length_map|].
  intros i Hi.
  rewrite (nth_indep (map f xs) 0 (f 0)) by (now rewrite length_map).
  rewrite map_nth. unfold f. now apply butterfly_payoff_tent.
Qed.

Lemma expiration_curve_tent_witness :
  exists d : PlotData,
    update_plot_body std_normal_cdf 100 0.25 (30 / 365) 0.04 100 5 = Ok d
    /\ exists (cost : R) (xs ys : list R),
         entry_cost d = Scalar cost /\ x d = Array xs /\ y_exp d = Array ys
         /\ length ys = length xs
         /\ forall i : nat,
              (i < length xs)%nat ->
              (nth i xs 0 <= 100 - 5 -> nth i ys 0 = - cost)
              /\ (100 - 5 <= nth i xs 0 <= 100 ->
                  nth i ys 0 = nth i xs 0 - (100 - 5) - cost)
              /\ (100 <= nth i xs 0 <= 100 + 5 ->
                  nth i ys 0 = (100 + 5) - nth i xs 0 - cost)
              /\ (100 + 5 <= nth i xs 0 -> nth i ys 0 = - cost)
              /\ - cost <= nth i ys 0.
Proof.
  assert (HT : threshold < 30 / 365) by (unfold threshold; lra).
  pose proof (update_plot_body_live std_normal_cdf 100 0.25 (30 / 365) 0.04 100 5
                HT ltac:(lra) ltac:(lra) ltac:(lra)) as H.
  cbv zeta in H.
  eexists. split; [exact H|].
  apply (expiration_curve_tent std_normal_cdf 100 0.25 (30 / 365) 0.04 100 5 _
           ltac:(lra) ltac:(right; lra) H).
Defined.

(** ** The entry cost at expiration *)

Lemma expired_cost_bounds (S0 K_mid width : R) :
  let cost := intrinsic S0 (K_mid - width) + intrinsic S0 (K_mid + width)
              - 2 * intrinsic S0 K_mid in
  0 <= cost <= Rabs width
  /\ (S0 <= K_mid - Rabs width \/ K_mid + Rabs width <= S0 -> cost = 0)
  /\ (S0 = K_mid -> cost = Rabs width).
Proof.
  cbv zeta. unfold intrinsic, Rmax, Rabs.
  destruct (Rcase_abs width); repeat destruct (Rle_dec _ _);
    repeat split; try lra; intros; lra.
Qed.



(** ** The spot price inside the swept domain *)

Lemma INR_149 : INR 149 = 149.
Proof. rewrite INR_IZR_INZ. reflexivity. Qed.

Lemma INR_150 : INR 150 = 150.
Proof. rewrite INR_IZR_INZ. reflexivity. Qed.

(** X6.  For [S0 > 0] the swept domain is centred on the spot price: the
    points [i] and [299 - i] are at the same distance on either side of
    [S0], which lies strictly between the points [149] and [150].  An even
    number of points puts none at the centre: the spot price, where line 288
    draws the vertical line, is never a swept price. *)
Theorem sweep_centred_on_spot
    (Phi : R -> R) (S0 sigma T r K_mid width : R) (d : PlotData) :
  0 < S0 ->
  update_plot_body Phi S0 sigma T r K_mid width = Ok d ->
  exists xs : list R,
    x d = Array xs
    /\ (forall i : nat,
          (i < 300)%nat -> nth i xs 0 + nth (299 - i) xs 0 = 2 * S0)
    /\ nth 149 xs 0 < S0 < nth 150 xs 0
    /\ (forall i : nat, (i < 300)%nat -> nth i xs 0 <> S0).
Proof.
  intros HS0 H.
  destruct (update_plot_body_inv _ _ _ _ _ _ _ _ H) as (cost & cur & E).
  cbv zeta in E. subst d. cbn [x].
  eexists. split; [reflexivity|].
  change 300%nat with (S (S 298)).
  assert (Hnth : forall i, (i < S (S 298))%nat ->
            nth i (linspace (S0 * 0.8) (S0 * 1.2) (S (S 298))) 0
            = S0 * 0.8 + INR i * (S0 * 0.4 / 299)).
  { intros i Hi. rewrite linspace_nth by exact Hi. rewrite INR_299. lra. }
  split; [|split].
  - intros i Hi. rewrite !Hnth by lia.
    rewrite minus_INR by lia. rewrite INR_299. lra.
  - rewrite !Hnth by lia. rewrite INR_149, INR_150. lra.
  - intros i Hi. rewrite Hnth by exact Hi.
    destruct (Nat.le_gt_cases i 149) as [Hle|Hgt].
    + apply le_INR in Hle. rewrite INR_149 in Hle.
      assert (INR i * (S0 * 0.4 / 299) <= 149 * (S0 * 0.4 / 299))
        by (apply Rmult_le_compat_r; lra).
      lra.
    + apply le_INR in Hgt. rewrite INR_150 in Hgt.
      assert (150 * (S0 * 0.4 / 299) <= INR i * (S0 * 0.4 / 299))
        by (apply Rmult_le_compat_r; lra).
      lra.
Qed.

Lemma sweep_centred_on_spot_witness :
  exists d : PlotData,
    update_plot_body std_normal_cdf 100 0.25 (30 / 365) 0.04 100 5 = Ok d
    /\ exists xs : list R,
         x d = Array xs
         /\ (forall i : nat,
               (i < 300)%nat -> nth i xs 0 + nth (299 - i) xs 0 = 2 * 100)
         /\ nth 149 xs 0 < 100 < nth 150 xs 0
         /\ (forall i : nat, (i < 300)%nat -> nth i xs 0 <> 100).
Proof.
  assert (HT : threshold < 30 / 365) by (unfold threshold; lra).
  pose proof (update_plot_body_live std_normal_cdf 100 0.25 (30 / 365) 0.04 100 5
                HT ltac:(lra) ltac:(lra) ltac:(lra)) as H.
  cbv zeta in H.
  eexists. split; [exact H|].
  apply (sweep_centred_on_spot std_normal_cdf 100 0.25 (30 / 365) 0.04 100 5 _
           ltac:(lra) H).
Defined.

(** ** A change of the unit of price *)

Lemma bs_d1_scale (lam S K T r sigma : R) :
  lam <> 0 -> K <> 0 ->
  bs_d1 (lam * S) (lam * K) T r sigma = bs_d1 S K T r sigma.
Proof.
  intros Hl HK. unfold bs_d1.
  replace (lam * S / (lam * K)) with (S / K) by (field; split; assumption).
  reflexivity.
Qed.

Lemma bs_price_scale (Phi : R -> R) (lam S K T r sigma : R) :
  lam <> 0 -> K <> 0 ->
  bs_price Phi (lam * S) (lam * K) T r sigma = lam * bs_price Phi S K T r sigma.
Proof.
  intros Hl HK. unfold bs_price, bs_d2. rewrite !bs_d1_scale by assumption. ring.
Qed.

Lemma intrinsic_scale (lam S K : R) :
  0 <= lam -> intrinsic (lam * S) (lam * K) = lam * intrinsic S K.
Proof.
  intros Hl. unfold intrinsic, Rmax.
  repeat destruct (Rle_dec _ _); nra.
Qed.

Lemma butterfly_payoff_scale (lam Kl Km Kh cost s : R) :
  0 <= lam ->
  butterfly_payoff (lam * Kl) (lam * Km) (lam * Kh) (lam * cost) (lam * s)
  = lam * butterfly_payoff Kl Km Kh cost s.
Proof.
  intros Hl. unfold butterfly_payoff. rewrite !intrinsic_scale by exact Hl. ring.
Qed.

Lemma linspace_scale (lam a b : R) (num : nat) :
  linspace (lam * a) (lam * b) num = map (Rmult lam) (linspace a b num).
Proof.
  destruct num as [|[|n]]; try reflexivity.
  unfold linspace. rewrite map_app, map_map. simpl map at 3.
  f_equal. apply map_ext. intros i. unfold Rdiv. ring.
Qed.

(** Every price of a result multiplied by the same factor. *)
Definition scale_data (lam : R) (d : PlotData) : PlotData :=
  {| entry_cost := ufunc1 (Rmult lam) (entry_cost d);
     x := ufunc1 (Rmult lam) (x d);
     y_exp := ufunc1 (Rmult lam) (y_exp d);
     y_cur := ufunc1 (Rmult lam) (y_cur d) |}.

(** X7.  The evaluator does not depend on the unit of price: multiplying
    the spot price, the centre strike and the width by a factor [lam > 0]
    multiplies the entry cost, the swept prices and both curves by [lam].
    For the pricing function alone, [price (lam S) (lam K) = lam * price S K]
    in both branches. *)
Theorem evaluator_scales_with_prices
    (Phi : R -> R) (lam S0 sigma T r K_mid width : R) (d : PlotData) :
  0 < lam ->
  update_plot_body Phi S0 sigma T r K_mid width = Ok d ->
  update_plot_body Phi (lam * S0) sigma T r (lam * K_mid) (lam * width)
  = Ok (scale_data lam d)
  /\ forall S K p : R,
       black_scholes_call Phi (Scalar S) (Scalar K) (Scalar T) (Scalar r) (Scalar sigma)
       = Ok (Scalar p) ->
       black_scholes_call Phi (Scalar (lam * S)) (Scalar (lam * K)) (Scalar T)
         (Scalar r) (Scalar sigma)
       = Ok (Scalar (lam * p)).
Proof.
  intros Hl H.
  assert (Hl0 : lam <> 0) by lra. assert (Hl1 : 0 <= lam) by lra.
  split.
  - destruct (Rle_lt_dec T threshold) as [HT|HT].
    + rewrite update_plot_body_expired in H by exact HT.
      rewrite update_plot_body_expired by exact HT.
      cbv zeta in *. apply Ok_inj in H. subst d. unfold scale_data.
      cbn [entry_cost x y_exp y_cur ufunc1].
      replace (lam * S0 * 0.8) with (lam * (S0 * 0.8)) by ring.
      replace (lam * S0 * 1.2) with (lam * (S0 * 1.2)) by ring.
      rewrite linspace_scale.
      generalize (linspace (S0 * 0.8) (S0 * 1.2) 300). intros xs.
      replace (lam * K_mid - lam * width) with (lam * (K_mid - width)) by ring.
      replace (lam * K_mid + lam * width) with (lam * (K_mid + width)) by ring.
      rewrite !intrinsic_scale by exact Hl1.
      rewrite !map_map.
      do 2 f_equal; [f_equal; ring | |];
        f_equal; apply map_ext; intros s;
        rewrite <- butterfly_payoff_scale by exact Hl1; f_equal; ring.
    + destruct (Req_dec_T (K_mid - width) 0) as [El|Nl];
        [rewrite update_plot_body_zero_strike in H by tauto; discriminate|].
      destruct (Req_dec_T K_mid 0) as [Em|Nm];
        [rewrite update_plot_body_zero_strike in H by tauto; discriminate|].
      destruct (Req_dec_T (K_mid + width) 0) as [Eh|Nh];
        [rewrite update_plot_body_zero_strike in H by tauto; discriminate|].
      rewrite update_plot_body_live in H by assumption.
      rewrite update_plot_body_live; try exact HT; try nra.
      cbv zeta in *. apply Ok_inj in H. subst d. unfold scale_data.
      cbn [entry_cost x y_exp y_cur ufunc1].
      replace (lam * S0 * 0.8) with (lam * (S0 * 0.8)) by ring.
      replace (lam * S0 * 1.2) with (lam * (S0 * 1.2)) by ring.
      rewrite linspace_scale.
      generalize (linspace (S0 * 0.8) (S0 * 1.2) 300). intros xs.
      replace (lam * K_mid - lam * width) with (lam * (K_mid - width)) by ring.
      replace (lam * K_mid + lam * width) with (lam * (K_mid + width)) by ring.
      rewrite !bs_price_scale by assumption.
      rewrite !map_map.
      do 2 f_equal; [f_equal; ring | |]; f_equal; apply map_ext; intros s.
      * rewrite <- butterfly_payoff_scale by exact Hl1. f_equal. ring.
      * rewrite !bs_price_scale by assumption. ring.
  - intros S K p Hp. apply call_scalar_cases in Hp.
    destruct Hp as [[HT E]|(HT & HK & E)]; injection E as ->.
    + rewrite shortcut_scalar by exact HT. now rewrite intrinsic_scale.
    + rewrite call_scalar_formula; [|exact HT|nra].
      now rewrite bs_price_scale.
Qed.

Lemma evaluator_scales_with_prices_witness :
  exists d : PlotData,
    update_plot_body std_normal_cdf 100 0.25 (30 / 365) 0.04 100 5 = Ok d
    /\ update_plot_body std_normal_cdf (2 * 100) 0.25 (30 / 365) 0.04 (2 * 100) (2 * 5)
       = Ok (scale_data 2 d)
    /\ forall S K p : R,
         black_scholes_call std_normal_cdf (Scalar S) (Scalar K) (Scalar (30 / 365))
           (Scalar 0.04) (Scalar 0.25)
         = Ok (Scalar p) ->
         black_scholes_call std_normal_cdf (Scalar (2 * S)) (Scalar (2 * K))
           (Scalar (30 / 365)) (Scalar 0.04) (Scalar 0.25)
         = Ok (Scalar (2 * p)).
Proof.
  assert (HT : threshold < 30 / 365) by (unfold threshold; lra).
  pose proof (update_plot_body_live std_normal_cdf 100 0.25 (30 / 365) 0.04 100 5
                HT ltac:(lra) ltac:(lra) ltac:(lra)) as H.
  cbv zeta in H.
  eexists. split; [exact H|].
  apply (evaluator_scales_with_prices std_normal_cdf 2 100 0.25 (30 / 365) 0.04 100 5 _
           ltac:(lra) H).
Defined.

(** ** How the price moves with the spot price and with the strike

    [norm.cdf] enters through its values in [[0, 1]] and through its
    derivative, the Gaussian curve over a positive constant; the standard
    normal distribution function has both ([std_normal_cdf_range],
    [std_normal_cdf_derivable]). *)

Definition has_gaussian_density (Phi : R -> R) : Prop :=
  exists mass : R,
    0 < mass /\ forall u : R, derivable_pt_lim Phi u (gauss u / mass).

Lemma std_normal_cdf_density : has_gaussian_density std_normal_cdf.
Proof.
  exists (area_sup - area_inf). split.
  - pose proof area_inf_lt_sup. lra.
  - exact std_normal_cdf_derivable.
Qed.

Lemma derivable_pt_lim_eq (f : R -> R) (x l l' : R) :
  derivable_pt_lim f x l -> l = l' -> derivable_pt_lim f x l'.
Proof. intros H <-. exact H. Qed.

Section Greeks.

Variable Phi : R -> R.
Variable mass : R.
Hypothesis mass_pos : 0 < mass.
Hypothesis Phi_density : forall u, derivable_pt_lim Phi u (gauss u / mass).
Hypothesis Phi_range : forall u, 0 <= Phi u <= 1.

Variables T r sigma : R.
Hypothesis sigma_pos : 0 < sigma.
Hypothesis T_pos : 0 < T.

Let a := sigma * sqrt T.

Lemma a_pos : 0 < a.
Proof. unfold a. apply Rmult_lt_0_compat; [assumption | now apply sqrt_lt_R0]. Qed.

(** [d1] as a function of the spot price. *)
Lemma bs_d1_derivable_S (S K : R) :
  0 < S -> 0 < K ->
  derivable_pt_lim (fun s => bs_d1 s K T r sigma) S (/ (S * a)).
Proof.
  intros HS HK. pose proof a_pos as Ha. unfold bs_d1. fold a.
  apply (derivable_pt_lim_ext
           (fun s => / a * (ln (/ K * s) + (r + sigma ^ 2 / 2) * T))).
  { intros s. unfold Rdiv. rewrite (Rmult_comm s (/ K)). ring. }
  eapply derivable_pt_lim_eq.
  - apply (derivable_pt_lim_scal (fun s => ln (/ K * s) + (r + sigma ^ 2 / 2) * T)).
    apply (derivable_pt_lim_plus (fun s => ln (/ K * s))
             (fct_cte ((r + sigma ^ 2 / 2) * T))).
    + apply (derivable_pt_lim_comp (fun s => / K * s) ln).
      * apply (derivable_pt_lim_scal id). apply derivable_pt_lim_id.
      * apply derivable_pt_lim_ln. apply Rmult_lt_0_compat; [|exact HS].
        now apply Rinv_0_lt_compat.
    + apply derivable_pt_lim_const.
  - field. repeat split; lra.
Qed.

Lemma bs_price_derivable_S (S K : R) :
  0 < S -> 0 < K ->
  derivable_pt_lim (fun s => bs_price Phi s K T r sigma) S
    (Phi (bs_d1 S K T r sigma)).
Proof.
  intros HS HK. pose proof a_pos as Ha.
  pose proof (bs_d1_derivable_S S K HS HK) as Hd1.
  assert (Hd2 : derivable_pt_lim (fun s => bs_d2 s K T r sigma) S (/ (S * a))).
  { unfold bs_d2. fold a.
    replace (/ (S * a)) with (/ (S * a) - 0) by ring.
    apply (derivable_pt_lim_minus (fun s => bs_d1 s K T r sigma) (fct_cte a));
      [exact Hd1 | apply derivable_pt_lim_const]. }
  pose proof (density_balance S K T r sigma HS HK sigma_pos T_pos) as Hb.
  fold (gauss (bs_d1 S K T r sigma)) in Hb. fold (gauss (bs_d2 S K T r sigma)) in Hb.
  unfold bs_price.
  set (d1 := bs_d1 S K T r sigma) in *. set (d2 := bs_d2 S K T r sigma) in *.
  replace (Phi d1)
    with ((1 * Phi d1 + S * (gauss d1 / mass * / (S * a)))
          - K * exp (- (r * T)) * (gauss d2 / mass * / (S * a))).
  2:{ replace (S * (gauss d1 / mass * / (S * a)))
        with (S * gauss d1 * (/ mass * / (S * a))) by (field; lra).
      rewrite Hb. field. lra. }
  apply (derivable_pt_lim_minus
           (fun s => s * Phi (bs_d1 s K T r sigma))
           (fun s => K * exp (- (r * T)) * Phi (bs_d2 s K T r sigma))).
  - apply (derivable_pt_lim_mult id (fun s => Phi (bs_d1 s K T r sigma))).
    + apply derivable_pt_lim_id.
    + apply (derivable_pt_lim_comp (fun s => bs_d1 s K T r sigma) Phi);
        [exact Hd1 | apply Phi_density].
  - apply (derivable_pt_lim_scal (fun s => Phi (bs_d2 s K T r sigma))).
    apply (derivable_pt_lim_comp (fun s => bs_d2 s K T r sigma) Phi);
      [exact Hd2 | apply Phi_density].
Qed.

Lemma bs_price_monotone_S (S1 S2 K : R) :
  0 < S1 -> S1 <= S2 -> 0 < K ->
  0 <= bs_price Phi S2 K T r sigma - bs_price Phi S1 K T r sigma <= S2 - S1.
Proof.
  intros H1 [Hlt| ->] HK; [|lra].
  destruct (MVT_cor2 (fun s => bs_price Phi s K T r sigma)
              (fun s => Phi (bs_d1 s K T r sigma)) S1 S2 Hlt) as (c & Hc & Hc').
  { intros c Hc. apply bs_price_derivable_S; lra. }
  rewrite Hc. pose proof (Phi_range (bs_d1 c K T r sigma)). nra.
Qed.

(** [d1] as a function of the strike. *)
Lemma bs_d1_derivable_K (S K : R) :
  0 < S -> 0 < K ->
  derivable_pt_lim (fun k => bs_d1 S k T r sigma) K (- / (K * a)).
Proof.
  intros HS HK. pose proof a_pos as Ha. unfold bs_d1. fold a.
  apply (derivable_pt_lim_locally_ext
           (fun k => / a * ((ln S - ln k) + (r + sigma ^ 2 / 2) * T)) _ K (K / 2) (K + 1)).
  { lra. }
  { intros k Hk. change (S / k) with (S * / k).
    assert (Hk0 : 0 < k) by lra.
    rewrite ln_mult; [|exact HS|now apply Rinv_0_lt_compat].
    rewrite ln_Rinv by exact Hk0.
    unfold Rdiv. ring. }
  eapply derivable_pt_lim_eq.
  - apply (derivable_pt_lim_scal (fun k => (ln S - ln k) + (r + sigma ^ 2 / 2) * T)).
    apply (derivable_pt_lim_plus (fun k => ln S - ln k)
             (fct_cte ((r + sigma ^ 2 / 2) * T))).
    + apply (derivable_pt_lim_minus (fct_cte (ln S)) ln).
      * apply derivable_pt_lim_const.
      * now apply derivable_pt_lim_ln.
    + apply derivable_pt_lim_const.
  - field. repeat split; lra.
Qed.

Lemma bs_price_derivable_K (S K : R) :
  0 < S -> 0 < K ->
  derivable_pt_lim (fun k => bs_price Phi S k T r sigma) K
    (- (exp (- (r * T)) * Phi (bs_d2 S K T r sigma))).
Proof.
  intros HS HK. pose proof a_pos as Ha.
  pose proof (bs_d1_derivable_K S K HS HK) as Hd1.
  assert (Hd2 : derivable_pt_lim (fun k => bs_d2 S k T r sigma) K (- / (K * a))).
  { unfold bs_d2. fold a.
    eapply derivable_pt_lim_eq.
    - apply (derivable_pt_lim_minus (fun k => bs_d1 S k T r sigma) (fct_cte a));
        [exact Hd1 | apply derivable_pt_lim_const].
    - ring. }
  pose proof (density_balance S K T r sigma HS HK sigma_pos T_pos) as Hb.
  fold (gauss (bs_d1 S K T r sigma)) in Hb. fold (gauss (bs_d2 S K T r sigma)) in Hb.
  unfold bs_price.
  apply (derivable_pt_lim_ext
           (fun k => S * Phi (bs_d1 S k T r sigma)
                     - (exp (- (r * T)) * k) * Phi (bs_d2 S k T r sigma))).
  { intros k. ring. }
  set (d1 := bs_d1 S K T r sigma) in *. set (d2 := bs_d2 S K T r sigma) in *.
  eapply derivable_pt_lim_eq.
  - apply (derivable_pt_lim_minus
             (fun k => S * Phi (bs_d1 S k T r sigma))
             (fun k => (exp (- (r * T)) * k) * Phi (bs_d2 S k T r sigma))).
    + apply (derivable_pt_lim_scal (fun k => Phi (bs_d1 S k T r sigma))).
      apply (derivable_pt_lim_comp (fun k => bs_d1 S k T r sigma) Phi);
        [exact Hd1 | apply Phi_density].
    + apply (derivable_pt_lim_mult (fun k => exp (- (r * T)) * k)
               (fun k => Phi (bs_d2 S k T r sigma))).
      * apply (derivable_pt_lim_scal id). apply derivable_pt_lim_id.
      * apply (derivable_pt_lim_comp (fun k => bs_d2 S k T r sigma) Phi);
          [exact Hd2 | apply Phi_density].
  - fold d1 d2. unfold id.
    replace (S * (gauss d1 / mass * - / (K * a)))
      with (S * gauss d1 * (- / (mass * (K * a)))) by (field; lra).
    rewrite Hb. field. lra.
Qed.

Lemma bs_price_monotone_K (S K1 K2 : R) :
  0 < S -> 0 < K1 -> K1 <= K2 ->
  0 <= bs_price Phi S K1 T r sigma - bs_price Phi S K2 T r sigma
    <= exp (- (r * T)) * (K2 - K1).
Proof.
  intros HS H1 [Hlt| ->]; [|pose proof (exp_pos (- (r * T))); lra].
  destruct (MVT_cor2 (fun k => bs_price Phi S k T r sigma)
              (fun k => - (exp (- (r * T)) * Phi (bs_d2 S k T r sigma))) K1 K2 Hlt)
    as (c & Hc & Hc').
  { intros c Hc. apply bs_price_derivable_K; lra. }
  pose proof (Phi_range (bs_d2 S c T r sigma)) as [Hl Hu].
  pose proof (exp_pos (- (r * T))) as HE.
  set (E := exp (- (r * T))) in *. set (P := Phi (bs_d2 S c T r sigma)) in *.
  assert (0 <= E * P * (K2 - K1)) by (apply Rmult_le_pos; [apply Rmult_le_pos|]; lra).
  assert (E * P * (K2 - K1) <= E * 1 * (K2 - K1)).
  { apply Rmult_le_compat_r; [lra|]. apply Rmult_le_compat_l; lra. }
  lra.
Qed.

End Greeks.

Lemma intrinsic_monotone_S (S1 S2 K : R) :
  S1 <= S2 -> 0 <= intrinsic S2 K - intrinsic S1 K <= S2 - S1.
Proof.
  intros H. unfold intrinsic, Rmax. repeat destruct (Rle_dec _ _); lra.
Qed.

Lemma intrinsic_monotone_K (S K1 K2 : R) :
  K1 <= K2 -> 0 <= intrinsic S K1 - intrinsic S K2 <= K2 - K1.
Proof.
  intros H. unfold intrinsic, Rmax. repeat destruct (Rle_dec _ _); lra.
Qed.

(** X8.  The price does not decrease when the spot price rises, and rises
    no faster than the spot price: for [0 < S1 <= S2], [K > 0],
    [sigma > 0] and a scalar [T >= 0], the two calls return prices [p1] and
    [p2] with [0 <= p2 - p1 <= S2 - S1]. *)
Theorem price_increases_with_spot
    (Phi : R -> R) (Hdens : has_gaussian_density Phi)
    (Hrange : forall u : R, 0 <= Phi u <= 1) (S1 S2 K T r sigma : R) :
  0 < S1 -> S1 <= S2 -> 0 < K -> 0 < sigma -> 0 <= T ->
  exists p1 p2 : R,
    black_scholes_call Phi (Scalar S1) (Scalar K) (Scalar T) (Scalar r) (Scalar sigma)
    = Ok (Scalar p1)
    /\ black_scholes_call Phi (Scalar S2) (Scalar K) (Scalar T) (Scalar r) (Scalar sigma)
       = Ok (Scalar p2)
    /\ 0 <= p2 - p1 <= S2 - S1.
Proof.
  intros H1 H12 HK Hs HT0.
  assert (Hthr : 0 < threshold) by (unfold threshold; lra).
  destruct (Rle_lt_dec T threshold) as [HT|HT].
  - exists (intrinsic S1 K), (intrinsic S2 K).
    split; [now apply shortcut_scalar|]. split; [now apply shortcut_scalar|].
    now apply intrinsic_monotone_S.
  - destruct Hdens as (mass & Hm & Hd).
    exists (bs_price Phi S1 K T r sigma), (bs_price Phi S2 K T r sigma).
    split; [apply call_scalar_formula; lra|].
    split; [apply call_scalar_formula; lra|].
    apply (bs_price_monotone_S Phi mass Hm Hd Hrange); try assumption; lra.
Qed.

Lemma price_increases_with_spot_witness :
  exists p1 p2 : R,
    black_scholes_call std_normal_cdf (Scalar 90) (Scalar 100) (Scalar (30 / 365))
      (Scalar 0.04) (Scalar 0.25)
    = Ok (Scalar p1)
    /\ black_scholes_call std_normal_cdf (Scalar 110) (Scalar 100) (Scalar (30 / 365))
         (Scalar 0.04) (Scalar 0.25)
       = Ok (Scalar p2)
    /\ 0 <= p2 - p1 <= 110 - 90.
Proof.
  apply (price_increases_with_spot std_normal_cdf std_normal_cdf_density
           std_normal_cdf_range 90 110 100 (30 / 365) 0.04 0.25); lra.
Defined.

(** X9.  The price does not increase when the strike rises: for [S > 0],
    [0 < K1 <= K2], [sigma > 0] and a scalar [T >= 0], the two calls return
    prices [p1] and [p2] with [p2 <= p1]; with a rate [r >= 0] the price
    falls no faster than the strike rises, [p1 - p2 <= K2 - K1]. *)
Theorem price_decreases_with_strike
    (Phi : R -> R) (Hdens : has_gaussian_density Phi)
    (Hrange : forall u : R, 0 <= Phi u <= 1) (S K1 K2 T r sigma : R) :
  0 < S -> 0 < K1 -> K1 <= K2 -> 0 < sigma -> 0 <= T ->
  exists p1 p2 : R,
    black_scholes_call Phi (Scalar S) (Scalar K1) (Scalar T) (Scalar r) (Scalar sigma)
    = Ok (Scalar p1)
    /\ black_scholes_call Phi (Scalar S) (Scalar K2) (Scalar T) (Scalar r) (Scalar sigma)
       = Ok (Scalar p2)
    /\ p2 <= p1
    /\ (0 <= r -> p1 - p2 <= K2 - K1).
Proof.
  intros HS H1 H12 Hs HT0.
  assert (Hthr : 0 < threshold) by (unfold threshold; lra).
  destruct (Rle_lt_dec T threshold) as [HT|HT].
  - exists (intrinsic S K1), (intrinsic S K2).
    split; [now apply shortcut_scalar|]. split; [now apply shortcut_scalar|].
    pose proof (intrinsic_monotone_K S K1 K2 H12). split; [lra | intros _; lra].
  - destruct Hdens as (mass & Hm & Hd).
    exists (bs_price Phi S K1 T r sigma), (bs_price Phi S K2 T r sigma).
    split; [apply call_scalar_formula; lra|].
    split; [apply call_scalar_formula; lra|].
    assert (HTpos : 0 < T) by lra.
    pose proof (bs_price_monotone_K Phi mass Hm Hd Hrange T r sigma Hs HTpos
                  S K1 K2 HS H1 H12) as [Hlo Hhi].
    split; [lra|]. intros Hr.
    assert (HE : exp (- (r * T)) <= 1).
    { rewrite <- exp_0. apply exp_le_mono. nra. }
    assert (exp (- (r * T)) * (K2 - K1) <= 1 * (K2 - K1))
      by (apply Rmult_le_compat_r; lra).
    lra.
Qed.

Lemma price_decreases_with_strike_witness :
  exists p1 p2 : R,
    black_scholes_call std_normal_cdf (Scalar 100) (Scalar 95) (Scalar (30 / 365))
      (Scalar 0.04) (Scalar 0.25)
    = Ok (Scalar p1)
    /\ black_scholes_call std_normal_cdf (Scalar 100) (Scalar 105) (Scalar (30 / 365))
         (Scalar 0.04) (Scalar 0.25)
       = Ok (Scalar p2)
    /\ p2 <= p1
    /\ (0 <= 0.04 -> p1 - p2 <= 105 - 95).
Proof.
  apply (price_decreases_with_strike std_normal_cdf std_normal_cdf_density
           std_normal_cdf_range 100 95 105 (30 / 365) 0.04 0.25); lra.
Defined.

(** ** The value of the strategy *)

Lemma ln_le_mono (u v : R) : 0 < u -> u <= v -> ln u <= ln v.
Proof. intros Hu [H| ->]; [left; now apply ln_increasing | lra]. Qed.

Section Convexity.

Variable Phi : R -> R.
Variable mass : R.
Hypothesis mass_pos : 0 < mass.
Hypothesis Phi_density : forall u, derivable_pt_lim Phi u (gauss u / mass).
Hypothesis Phi_range : forall u, 0 <= Phi u <= 1.

Variables T r sigma : R.
Hypothesis sigma_pos : 0 < sigma.
Hypothesis T_pos : 0 < T.

Lemma Phi_monotone (u v : R) : u <= v -> Phi u <= Phi v.
Proof.
  apply (nondecreasing_of_derivative Phi (fun t => gauss t / mass) Phi_density).
  intros t. apply Rmult_le_pos; [left; apply gauss_pos | left; now apply Rinv_0_lt_compat].
Qed.

Lemma bs_d2_antitone_K (S K1 K2 : R) :
  0 < S -> 0 < K1 -> K1 <= K2 ->
  bs_d2 S K2 T r sigma <= bs_d2 S K1 T r sigma.
Proof.
  intros HS H1 H12. unfold bs_d2, bs_d1.
  pose proof (a_pos T sigma sigma_pos T_pos) as Ha.
  assert (Hln : ln (S / K2) <= ln (S / K1)).
  { apply ln_le_mono; [apply Rdiv_lt_0_compat; lra|].
    unfold Rdiv. apply Rmult_le_compat_l; [lra|].
    apply Rinv_le_contravar; assumption. }
  assert (Hq : (ln (S / K2) + (r + sigma ^ 2 / 2) * T) / (sigma * sqrt T)
               <= (ln (S / K1) + (r + sigma ^ 2 / 2) * T) / (sigma * sqrt T)).
  { unfold Rdiv at 1 3. apply Rmult_le_compat_r; [|lra].
    left. now apply Rinv_0_lt_compat. }
  lra.
Qed.

(** The price is convex in the strike: the value of a butterfly. *)
Lemma bs_butterfly_value (S K width : R) :
  0 < S -> 0 <= width -> 0 < K - width ->
  0 <= bs_price Phi S (K - width) T r sigma + bs_price Phi S (K + width) T r sigma
       - 2 * bs_price Phi S K T r sigma
    <= exp (- (r * T)) * width.
Proof.
  intros HS [Hw| <-] Hl.
  2:{ replace (K - 0) with K by ring. replace (K + 0) with K by ring. lra. }
  pose proof (exp_pos (- (r * T))) as HE. set (E := exp (- (r * T))) in *.
  set (g := fun k => bs_price Phi S k T r sigma).
  set (g' := fun k => - (E * Phi (bs_d2 S k T r sigma))).
  assert (Hg : forall c, 0 < c -> derivable_pt_lim g c (g' c)).
  { intros c Hc. apply (bs_price_derivable_K Phi mass mass_pos Phi_density T r sigma
                          sigma_pos T_pos S c HS Hc). }
  destruct (MVT_cor2 g g' (K - width) K ltac:(lra)) as (c1 & Hc1 & Hc1').
  { intros c Hc. apply Hg. lra. }
  destruct (MVT_cor2 g g' K (K + width) ltac:(lra)) as (c2 & Hc2 & Hc2').
  { intros c Hc. apply Hg. lra. }
  assert (Hmon : Phi (bs_d2 S c2 T r sigma) <= Phi (bs_d2 S c1 T r sigma)).
  { apply Phi_monotone. apply bs_d2_antitone_K; lra. }
  pose proof (Phi_range (bs_d2 S c1 T r sigma)) as [L1 U1].
  pose proof (Phi_range (bs_d2 S c2 T r sigma)) as [L2 U2].
  unfold g, g' in Hc1, Hc2.
  set (P1 := Phi (bs_d2 S c1 T r sigma)) in *.
  set (P2 := Phi (bs_d2 S c2 T r sigma)) in *.
  replace (K - (K - width)) with width in Hc1 by ring.
  replace (K + width - K) with width in Hc2 by ring.
  assert (Hd : bs_price Phi S (K - width) T r sigma + bs_price Phi S (K + width) T r sigma
               - 2 * bs_price Phi S K T r sigma = E * (P1 - P2) * width) by lra.
  rewrite Hd. split.
  - apply Rmult_le_pos; [apply Rmult_le_pos|]; lra.
  - apply Rmult_le_compat_r; [lra|].
    rewrite <- (Rmult_1_r E) at 2. apply Rmult_le_compat_l; lra.
Qed.

End Convexity.

Lemma linspace_pos (a b : R) (n i : nat) :
  0 < a -> a <= b -> (i < S (S n))%nat ->
  0 < nth i (linspace a b (S (S n))) 0.
Proof.
  intros Ha Hab Hi. rewrite linspace_nth by exact Hi.
  assert (0 <= INR i) by apply pos_INR.
  assert (0 < INR (S n)) by (apply lt_0_INR; lia).
  assert (0 <= (b - a) / INR (S n)).
  { apply Rmult_le_pos; [lra | left; now apply Rinv_0_lt_compat]. }
  assert (0 <= INR i * ((b - a) / INR (S n))) by now apply Rmult_le_pos.
  lra.
Qed.

Lemma nth_map_0 (f : R -> R) (xs : list R) (i : nat) :
  (i < length xs)%nat -> nth i (map f xs) 0 = f (nth i xs 0).
Proof.
  intros Hi. rewrite (nth_indep (map f xs) 0 (f 0)) by (now rewrite length_map).
  apply map_nth.
Qed.

Lemma strategy_value_bounds_body
    (Phi : R -> R) (Hdens : has_gaussian_density Phi)
    (Hrange : forall u : R, 0 <= Phi u <= 1) (S0 sigma T r K_mid width : R) :
  0 < S0 -> 0 < sigma -> 0 <= T -> 0 <= r -> 0 < width -> width < K_mid ->
  exists (d : PlotData) (cost : R) (xs ye yc : list R),
    update_plot_body Phi S0 sigma T r K_mid width = Ok d
    /\ entry_cost d = Scalar cost /\ x d = Array xs
    /\ y_exp d = Array ye /\ y_cur d = Array yc
    /\ 0 <= cost <= width
    /\ forall i : nat,
         (i < 300)%nat ->
         - cost <= nth i ye 0 <= width - cost
         /\ - cost <= nth i yc 0 <= width - cost.
Proof.
  intros HS0 Hs HT0 Hr Hw HK.
  assert (Hthr : 0 < threshold) by (unfold threshold; lra).
  assert (Hexp : forall cost s,
            - cost <= butterfly_payoff (K_mid - width) K_mid (K_mid + width) cost s
            <= width - cost).
  { intros cost s. split.
    - apply butterfly_payoff_tent. lra.
    - now apply butterfly_payoff_le_peak. }
  assert (Hlen : length (linspace (S0 * 0.8) (S0 * 1.2) 300) = 300%nat)
    by apply linspace_length.
  destruct (Rle_lt_dec T threshold) as [HT|HT].
  - pose proof (update_plot_body_expired Phi S0 sigma T r K_mid width HT) as H.
    cbv zeta in H.
    pose proof (expired_cost_bounds S0 K_mid width) as (Hc & _). cbv zeta in Hc.
    rewrite (Rabs_pos_eq width) in Hc by lra.
    set (cost := intrinsic S0 (K_mid - width) + intrinsic S0 (K_mid + width)
                 - 2 * intrinsic S0 K_mid) in *.
    set (xs := linspace (S0 * 0.8) (S0 * 1.2) 300) in *. clearbody xs.
    eexists. exists cost, xs. eexists. eexists.
    split; [exact H|]. do 4 (split; [reflexivity|]). split; [exact Hc|].
    intros i Hi. rewrite !nth_map_0 by lia. split; apply Hexp.
  - destruct Hdens as (mass & Hm & Hd).
    assert (HTpos : 0 < T) by lra.
    pose proof (update_plot_body_live Phi S0 sigma T r K_mid width HT
                  ltac:(lra) ltac:(lra) ltac:(lra)) as H.
    cbv zeta in H.
    assert (HE : exp (- (r * T)) * width <= width).
    { assert (exp (- (r * T)) <= 1) by (rewrite <- exp_0; apply exp_le_mono; nra).
      rewrite <- (Rmult_1_l width) at 2. apply Rmult_le_compat_r; lra. }
    assert (Hval : forall s, 0 < s ->
              0 <= bs_price Phi s (K_mid - width) T r sigma
                   + bs_price Phi s (K_mid + width) T r sigma
                   - 2 * bs_price Phi s K_mid T r sigma <= width).
    { intros s Hs0.
      pose proof (bs_butterfly_value Phi mass Hm Hd Hrange T r sigma Hs HTpos
                    s K_mid width Hs0 ltac:(lra) ltac:(lra)).
      lra. }
    pose proof (Hval S0 HS0) as Hc.
    set (cost := bs_price Phi S0 (K_mid - width) T r sigma
                 + bs_price Phi S0 (K_mid + width) T r sigma
                 - 2 * bs_price Phi S0 K_mid T r sigma) in *.
    assert (Hpos : forall i, (i < 300)%nat ->
              0 < nth i (linspace (S0 * 0.8) (S0 * 1.2) 300) 0).
    { intros i Hi. apply (linspace_pos _ _ 298); [lra | lra | exact Hi]. }
    set (xs := linspace (S0 * 0.8) (S0 * 1.2) 300) in *. clearbody xs.
    eexists. exists cost, xs. eexists. eexists.
    split; [exact H|]. do 4 (split; [reflexivity|]). split; [exact Hc|].
    intros i Hi. rewrite !nth_map_0 by lia. split; [apply Hexp|].
    pose proof (Hval _ (Hpos i Hi)). lra.
Qed.

(** X10.  For [S0 > 0], [sigma > 0], [T >= 0], a rate [r >= 0] and
    [0 < width < K_mid] (three positive strikes) the evaluator returns, the
    entry cost lies between [0] and the width, and every point of both
    curves lies between [- entry_cost] and [width - entry_cost]: before
    expiration as at expiration, the strategy cannot lose more than it cost
    nor gain more than the width less the cost. *)
Theorem strategy_value_bounds
    (Phi : R -> R) (Hdens : has_gaussian_density Phi)
    (Hrange : forall u : R, 0 <= Phi u <= 1) (S0 sigma T r K_mid width : R) :
  0 < S0 -> 0 < sigma -> 0 <= T -> 0 <= r -> 0 < width -> width < K_mid ->
  exists (d : PlotData) (cost : R) (xs ye yc : list R),
    update_plot_body Phi S0 sigma T r K_mid width = Ok d
    /\ entry_cost d = Scalar cost /\ x d = Array xs
    /\ y_exp d = Array ye /\ y_cur d = Array yc
    /\ 0 <= cost <= width
    /\ forall i : nat,
         (i < 300)%nat ->
         - cost <= nth i ye 0 <= width - cost
         /\ - cost <= nth i yc 0 <= width - cost.
Proof.
  intros HS0 Hs HT0 Hr Hw HK.
  now apply strategy_value_bounds_body.
Qed.

Lemma strategy_value_bounds_witness :
  exists (d : PlotData) (cost : R) (xs ye yc : list R),
    update_plot_body std_normal_cdf 100 0.25 (30 / 365) 0.04 100 5 = Ok d
    /\ entry_cost d = Scalar cost /\ x d = Array xs
    /\ y_exp d = Array ye /\ y_cur d = Array yc
    /\ 0 <= cost <= 5
    /\ forall i : nat,
         (i < 300)%nat ->
         - cost <= nth i ye 0 <= 5 - cost
         /\ - cost <= nth i yc 0 <= 5 - cost.
Proof.
  apply (strategy_value_bounds std_normal_cdf std_normal_cdf_density
           std_normal_cdf_range 100 0.25 (30 / 365) 0.04 100 5); lra.
Defined.

(** X11.  In every state of the widgets inside their ranges with the width
    below the centre strike, [update_plot] returns the data of the chart;
    in real arithmetic, as everywhere in this development (rounding can
    move a computed value across a bound by an amount of the order of the
    last digit), the entry cost lies between [0] and the width, and both
    curves stay between [- entry_cost] and [width - entry_cost]. *)
Theorem update_plot_within_bounds
    (Phi : R -> R) (Hdens : has_gaussian_density Phi)
    (Hrange : forall u : R, 0 <= Phi u <= 1) (w : Widgets) :
  in_range w ->
  spin_width w < spin_atm w ->
  exists (d : PlotData) (cost : R) (xs ye yc : list R),
    update_plot Phi w = Ok d
    /\ entry_cost d = Scalar cost /\ x d = Array xs
    /\ y_exp d = Array ye /\ y_cur d = Array yc
    /\ 0 <= cost <= spin_width w
    /\ forall i : nat,
         (i < 300)%nat ->
         - cost <= nth i ye 0 <= spin_width w - cost
         /\ - cost <= nth i yc 0 <= spin_width w - cost.
Proof.
  intros Hin Hlt.
  pose proof (in_range_parameters w Hin) as (Hp & Hiv & Hd & Ha & Hw).
  destruct Hin as (_ & _ & _ & Hr & _ & _).
  unfold update_plot. cbv zeta.
  apply strategy_value_bounds_body; try assumption; try lra.
Qed.

(** The state of the widgets the constructor sets (lines 71-102). *)
Definition widgets_default : Widgets :=
  {| spin_price := 100; slider_iv := 25; slider_days := 30;
     spin_rate := 4; spin_atm := 100; spin_width := 5 |}.

Lemma widgets_default_in_range : in_range widgets_default.
Proof. unfold in_range, widgets_default. simpl. repeat split; try lra; lia. Qed.

Lemma update_plot_within_bounds_witness :
  exists (d : PlotData) (cost : R) (xs ye yc : list R),
    update_plot std_normal_cdf widgets_default = Ok d
    /\ entry_cost d = Scalar cost /\ x d = Array xs
    /\ y_exp d = Array ye /\ y_cur d = Array yc
    /\ 0 <= cost <= spin_width widgets_default
    /\ forall i : nat,
         (i < 300)%nat ->
         - cost <= nth i ye 0 <= spin_width widgets_default - cost
         /\ - cost <= nth i yc 0 <= spin_width widgets_default - cost.
Proof.
  apply (update_plot_within_bounds std_normal_cdf std_normal_cdf_density
           std_normal_cdf_range widgets_default widgets_default_in_range).
  simpl. lra.
Defined.

(** ** Arrays of different lengths *)

Lemma ufunc2_mismatch (f : R -> R -> R) (xs ys : list R) :
  length xs <> length ys -> length xs <> 1%nat -> length ys <> 1%nat ->
  ufunc2 f (Array xs) (Array ys) = Raise ValueError.
Proof.
  intros Hne Hx Hy. unfold ufunc2.
  destruct xs as [|x [|x' xs]]; destruct ys as [|y [|y' ys]];
    simpl in *; try congruence.
  destruct (Nat.eqb_spec (length xs) (length ys)) as [E|_]; [|reflexivity].
  congruence.
Qed.

(** X12.  An array of spot prices and an array of strikes whose lengths
    differ, neither being one, are refused: [black_scholes_call] raises
    [ValueError] on its first operation, [S - K] under the shortcut and
    [S / K] otherwise, whatever [T], [r] and [sigma] are. *)
Theorem mismatched_arrays_raise
    (Phi : R -> R) (xs ks : list R) (T r sigma : ndval) :
  length xs <> length ks -> length xs <> 1%nat -> length ks <> 1%nat ->
  black_scholes_call Phi (Array xs) (Array ks) T r sigma = Raise ValueError.
Proof.
  intros Hne Hx Hk.
  assert (Hdiv : closed_form Phi (Array xs) (Array ks) T r sigma = Raise ValueError).
  { unfold closed_form, truediv, np_div.
    now rewrite ufunc2_mismatch. }
  unfold black_scholes_call.
  destruct (isscalar T); [|exact Hdiv].
  destruct (scalar_le T threshold); [|exact Hdiv].
  unfold sub. now rewrite ufunc2_mismatch.
Qed.

Lemma mismatched_arrays_raise_witness :
  black_scholes_call std_normal_cdf (Array [90; 100; 110]) (Array [95; 105])
    (Scalar (30 / 365)) (Scalar 0.04) (Scalar 0.25)
  = Raise ValueError.
Proof.
  apply (mismatched_arrays_raise std_normal_cdf [90; 100; 110] [95; 105]);
    simpl; lia.
Defined.

(** ** The crosshair that follows the mouse (lines 170-176 and 217-238) *)

(** A point, of the scene or of the chart. *)
Record Point : Type := { point_x : R; point_y : R }.

(** The two hover lines: whether each is shown, and where it stands. *)
Record Crosshair : Type := {
  vLineHover_visible : bool;
  hLineHover_visible : bool;
  vLineHover_pos : R;
  hLineHover_pos : R
}.

(** The hover lines as the constructor leaves them (lines 171-174): at the
    origin, hidden. *)
Definition crosshair_init : Crosshair :=
  {| vLineHover_visible := false; hLineHover_visible := false;
     vLineHover_pos := 0; hLineHover_pos := 0 |}.

Section Hover.

(** [plot_widget.sceneBoundingRect().contains] *)
Variable contains : Point -> bool.

(** [plot_widget.plotItem.vb.mapSceneToView] *)
Variable mapSceneToView : Point -> Point.

(** Lines 217-238. *)
Definition mouseMoved (c : Crosshair) (evt : Point) : Crosshair :=
  let pos := evt in
  if contains pos then
    let mousePoint := mapSceneToView pos in
    let x_val := point_x mousePoint in
    let y_val := point_y mousePoint in
    {| vLineHover_visible := true; hLineHover_visible := true;
       vLineHover_pos := x_val; hLineHover_pos := y_val |}
  else
    {| vLineHover_visible := false; hLineHover_visible := false;
       vLineHover_pos := vLineHover_pos c; hLineHover_pos := hLineHover_pos c |}.

(** The crosshair after a sequence of mouse moves. *)
Definition after_moves (evts : list Point) : Crosshair :=
  fold_left mouseMoved evts crosshair_init.

Lemma after_moves_snoc (evts : list Point) (e : Point) :
  after_moves (evts ++ [e]) = mouseMoved (after_moves evts) e.
Proof. unfold after_moves. now rewrite fold_left_app. Qed.

End Hover.

(** X13.  After any sequence of mouse moves the two hover lines are shown or
    hidden together; they are shown exactly when the last move was inside
    the plot, and they stand at the chart coordinates of the last move that
    was inside the plot (at the origin when there was none): a hidden
    crosshair keeps the place where it was last shown. *)
Theorem crosshair_follows_mouse
    (contains : Point -> bool) (mapSceneToView : Point -> Point)
    (evts : list Point) :
  let c := after_moves contains mapSceneToView evts in
  vLineHover_visible c = hLineHover_visible c
  /\ vLineHover_visible c
     = match rev evts with
       | [] => false
       | e :: _ => contains e
       end
  /\ (vLineHover_pos c, hLineHover_pos c)
     = match rev (filter contains evts) with
       | [] => (0, 0)
       | e :: _ => (point_x (mapSceneToView e), point_y (mapSceneToView e))
       end.
Proof.
  cbv zeta. induction evts as [|e evts IH] using rev_ind.
  - repeat split.
  - rewrite after_moves_snoc, filter_app, !rev_app_distr. cbn [rev app filter].
    unfold mouseMoved. cbv zeta.
    destruct (contains e) eqn:He; cbn.
    + repeat split.
    + destruct IH as (_ & _ & IH). repeat split. exact IH.
Qed.

(** ** The labels of the sliders (lines 240-244) *)

Module SliderLabels.

Import String.

(** An integer in an f-string: its decimal digits, after a minus sign when
    it is negative. *)
Definition format_int (z : Z) : String.string :=
  DecimalString.NilZero.string_of_int (Z.to_int z).

(** The texts of the two labels beside the sliders. *)
Record Labels : Type := {
  lbl_iv_val : String.string;
  lbl_days_val : String.string
}.

(** Lines 240-244. *)
Definition update_ui_labels (w : Widgets) : Labels :=
  let iv := slider_iv w in
  let days := slider_days w in
  {| lbl_iv_val := String.append (format_int iv) " %"%string;
     lbl_days_val := String.append (format_int days) " Days"%string |}.

Lemma to_int_proper (z : Z) :
  Z.to_int z <> Decimal.Pos Decimal.Nil /\ Z.to_int z <> Decimal.Neg Decimal.Nil.
Proof.
  destruct z as [|p|p]; simpl; split; try discriminate;
    intros [= H]; now apply (DecimalPos.Unsigned.to_uint_nonnil p).
Qed.

Lemma format_int_read (z : Z) :
  option_map Z.of_int (DecimalString.NilZero.int_of_string (format_int z)) = Some z.
Proof.
  unfold format_int. destruct (to_int_proper z) as [H1 H2].
  rewrite DecimalString.NilZero.isi by assumption. simpl.
  now rewrite DecimalZ.of_to.
Qed.

Lemma format_int_inj (z1 z2 : Z) : format_int z1 = format_int z2 -> z1 = z2.
Proof.
  intros H. pose proof (format_int_read z1) as H1. rewrite H, format_int_read in H1.
  now injection H1.
Qed.

Lemma append_length (s t : String.string) :
  String.length (String.append s t) = (String.length s + String.length t)%nat.
Proof. induction s as [|a s IH]; simpl; [reflexivity | now rewrite IH]. Qed.

Lemma append_cancel_r (t s1 s2 : String.string) :
  String.append s1 t = String.append s2 t -> s1 = s2.
Proof.
  revert s2. induction s1 as [|a s1 IH]; intros [|b s2] H; simpl in H.
  - reflexivity.
  - apply (f_equal String.length) in H. simpl in H. rewrite append_length in H. lia.
  - apply (f_equal String.length) in H. simpl in H. rewrite append_length in H. lia.
  - injection H as -> H. f_equal. now apply IH.
Qed.

Example update_ui_labels_default :
  update_ui_labels widgets_default
  = {| lbl_iv_val := "25 %"%string; lbl_days_val := "30 Days"%string |}.
Proof. reflexivity. Qed.

(** X14.  The labels show the sliders: two states of the widgets with the
    same two label texts have the same volatility and the same number of
    days (each text is the decimal writing of the slider's value, which
    reads back as that value, followed by its unit). *)
Theorem labels_determine_sliders (w1 w2 : Widgets) :
  update_ui_labels w1 = update_ui_labels w2 ->
  slider_iv w1 = slider_iv w2 /\ slider_days w1 = slider_days w2.
Proof.
  unfold update_ui_labels. cbv zeta. intros H. injection H as Hiv Hdays.
  apply append_cancel_r in Hiv, Hdays.
  split; now apply format_int_inj.
Qed.

Lemma labels_determine_sliders_witness :
  slider_iv widgets_default = slider_iv widgets_default
  /\ slider_days widgets_default = slider_days widgets_default.
Proof.
  apply (labels_determine_sliders widgets_default widgets_default).
  reflexivity.
Defined.

End SliderLabels.

(** ** The price and the intrinsic value

    The standard normal distribution function is symmetric,
    [Phi (- u) = 1 - Phi u]: the Gaussian curve is even. *)

Lemma area_sup_least (m : R) : (forall x, area x <= m) -> area_sup <= m.
Proof.
  intros H. unfold area_sup.
  destruct (completeness area_values _ _) as [l [Hub Hl]]. simpl.
  apply Hl. intros y [x ->]. apply H.
Qed.

Lemma area_inf_greatest (m : R) : (forall x, m <= area x) -> m <= area_inf.
Proof.
  intros H. unfold area_inf.
  destruct (completeness area_opposites _ _) as [l [Hub Hl]]. simpl.
  assert (l <= - m); [|lra].
  apply Hl. intros y [x ->]. specialize (H x). lra.
Qed.

Lemma gauss_even (t : R) : gauss (- t) = gauss t.
Proof. unfold gauss. replace ((- t) ^ 2) with (t ^ 2) by ring. reflexivity. Qed.

Lemma area_0 : area 0 = 0.
Proof. unfold area, integral_from_0. apply RiemannInt_P9. Qed.

Lemma area_odd (x : R) : area (- x) = - area x.
Proof.
  assert (Hd : forall t, derivable_pt_lim (fun u => area (- u) + area u) t 0).
  { intros t. eapply derivable_pt_lim_eq.
    - apply (derivable_pt_lim_plus (fun u => area (- u)) area).
      + apply (derivable_pt_lim_comp Ropp area).
        * apply (derivable_pt_lim_opp id). apply derivable_pt_lim_id.
        * apply area_derivable.
      + apply area_derivable.
    - rewrite gauss_even. ring. }
  assert (Hd' : forall t, derivable_pt_lim (fun u => - (area (- u) + area u)) t (- 0)).
  { intros t. apply (derivable_pt_lim_opp (fun u => area (- u) + area u)). apply Hd. }
  assert (Hc : forall a b, a <= b -> area (- a) + area a = area (- b) + area b).
  { intros a b Hab.
    pose proof (nondecreasing_of_derivative _ (fun _ => 0) Hd
                  (fun _ => Rle_refl 0) a b Hab) as H1.
    pose proof (nondecreasing_of_derivative _ (fun _ => - 0) Hd'
                  (fun _ => Req_le _ _ (eq_sym Ropp_0)) a b Hab) as H2.
    simpl in H1, H2. lra. }
  destruct (Rle_lt_dec 0 x) as [H|H].
  - pose proof (Hc 0 x H) as E. rewrite Ropp_0, area_0 in E. lra.
  - pose proof (Hc x 0 (Rlt_le _ _ H)) as E. rewrite Ropp_0, area_0 in E. lra.
Qed.

Lemma area_inf_sup : area_inf = - area_sup.
Proof.
  apply Rle_antisym.
  - assert (area_sup <= - area_inf); [|lra].
    apply area_sup_least. intros x.
    pose proof (area_ge_inf (- x)) as H. rewrite area_odd in H. lra.
  - apply area_inf_greatest. intros x.
    pose proof (area_le_sup (- x)) as H. rewrite area_odd in H. lra.
Qed.

Lemma std_normal_cdf_symmetric (u : R) : std_normal_cdf (- u) = 1 - std_normal_cdf u.
Proof.
  unfold std_normal_cdf. rewrite area_odd, area_inf_sup.
  pose proof area_inf_lt_sup as H. rewrite area_inf_sup in H.
  field. lra.
Qed.

Section TimeValue.

Variable Phi : R -> R.
Hypothesis Phi_cdf : normal_cdf Phi.
Hypothesis Phi_symmetric : forall u, Phi (- u) = 1 - Phi u.

Variables S K T r sigma : R.
Hypothesis S_pos : 0 < S.
Hypothesis K_pos : 0 < K.
Hypothesis sigma_pos : 0 < sigma.
Hypothesis T_pos : 0 < T.

Lemma bs_price_lower : S - K * exp (- (r * T)) <= bs_price Phi S K T r sigma.
Proof.
  unfold bs_price.
  pose proof (density_balance S K T r sigma S_pos K_pos sigma_pos T_pos) as Hb.
  set (d1 := bs_d1 S K T r sigma) in *. set (d2 := bs_d2 S K T r sigma) in *.
  assert (Hle : - d1 <= - d2).
  { unfold d2, bs_d2. fold d1.
    pose proof (vol_pos T sigma sigma_pos T_pos). lra. }
  pose proof (cdf_mills Phi Phi_cdf _ _ Hle) as Hm.
  replace ((- d2) ^ 2) with (d2 ^ 2) in Hm by ring.
  replace ((- d1) ^ 2) with (d1 ^ 2) in Hm by ring.
  rewrite !Phi_symmetric in Hm.
  pose proof (exp_pos (- (d1 ^ 2 / 2))) as E1.
  pose proof (exp_pos (- (d2 ^ 2 / 2))) as E2.
  pose proof (exp_pos (- (r * T))) as Er.
  set (e1 := exp (- (d1 ^ 2 / 2))) in *.
  set (e2 := exp (- (d2 ^ 2 / 2))) in *.
  set (D := K * exp (- (r * T))) in *.
  assert (HD : 0 < D) by (unfold D; apply Rmult_lt_0_compat; assumption).
  assert (H : S * (1 - Phi d1) * e1 <= D * (1 - Phi d2) * e1).
  { replace (S * (1 - Phi d1) * e1) with (S * e1 * (1 - Phi d1)) by ring.
    rewrite Hb.
    replace (D * e2 * (1 - Phi d1)) with (D * ((1 - Phi d1) * e2)) by ring.
    replace (D * (1 - Phi d2) * e1) with (D * ((1 - Phi d2) * e1)) by ring.
    apply Rmult_le_compat_l; lra. }
  apply Rmult_le_reg_r in H; lra.
Qed.

End TimeValue.

(** X15.  With a rate [r >= 0] the price is never below the intrinsic
    value: for [S > 0], [K > 0], [sigma > 0] and a scalar [T >= 0] the call
    returns a price [p >= max (S - K) 0]; above the threshold it is also at
    least the spot price less the discounted strike,
    [p >= S - K * exp (- r T)]. *)
Theorem price_above_intrinsic
    (Phi : R -> R) (HPhi : normal_cdf Phi)
    (Hsym : forall u : R, Phi (- u) = 1 - Phi u) (S K T r sigma : R) :
  0 < S -> 0 < K -> 0 < sigma -> 0 <= T -> 0 <= r ->
  exists p : R,
    black_scholes_call Phi (Scalar S) (Scalar K) (Scalar T) (Scalar r) (Scalar sigma)
    = Ok (Scalar p)
    /\ Rmax (S - K) 0 <= p
    /\ (threshold < T -> S - K * exp (- (r * T)) <= p).
Proof.
  intros HS HK Hs HT0 Hr.
  assert (Hthr : 0 < threshold) by (unfold threshold; lra).
  destruct (Rle_lt_dec T threshold) as [HT|HT].
  - exists (intrinsic S K). split; [now apply shortcut_scalar|].
    split; [unfold intrinsic; lra | intros; lra].
  - assert (HTpos : 0 < T) by lra.
    exists (bs_price Phi S K T r sigma).
    split; [apply call_scalar_formula; lra|].
    pose proof (bs_price_lower Phi HPhi Hsym S K T r sigma HS HK Hs HTpos) as Hlow.
    pose proof (bs_price_bounds Phi HPhi S K T r sigma HS HK Hs HTpos) as [H0 _].
    assert (HE : exp (- (r * T)) <= 1).
    { rewrite <- exp_0. apply exp_le_mono. nra. }
    assert (K * exp (- (r * T)) <= K * 1) by (apply Rmult_le_compat_l; lra).
    split; [|intros _; exact Hlow].
    unfold Rmax. destruct (Rle_dec (S - K) 0); lra.
Qed.

Lemma price_above_intrinsic_witness :
  exists p : R,
    black_scholes_call std_normal_cdf (Scalar 100) (Scalar 95) (Scalar (30 / 365))
      (Scalar 0.04) (Scalar 0.25)
    = Ok (Scalar p)
    /\ Rmax (100 - 95) 0 <= p
    /\ (threshold < 30 / 365 -> 100 - 95 * exp (- (0.04 * (30 / 365))) <= p).
Proof.
  apply (price_above_intrinsic std_normal_cdf std_normal_cdf_normal
           std_normal_cdf_symmetric 100 95 (30 / 365) 0.04 0.25); lra.
Defined.
